(** * Course example programs: shift scheduler, kinship rules, statistics
    calculators and ride fares, embedded from their sources.

    Each program of the repository is an independent leaf, so each gets a
    module of definitions (translated from the C++, Prolog, OCaml and C
    sources) followed, further down, by a module of lemmas about them. *)

From Stdlib Require Import ZArith Lia Floats Ascii.
From stdpp Require Import gmap strings list pretty sorting.

Set Warnings "-inexact-float".

(** ** Machine integers of the C and C++ programs

    [int] is the 32-bit two's complement integer and [size_t] the 64-bit
    unsigned one (LP64).  A conversion to [int] and an [int] operation whose
    mathematical result leaves the range wrap around, as the generated code
    does; a division that traps is reported by [None]. *)
Module CInt.

Definition INT_MIN : Z := -2147483648.
Definition INT_MAX : Z := 2147483647.

Definition to_int (z : Z) : Z :=
  ((z + 2147483648) `mod` 4294967296 - 2147483648)%Z.

Definition to_size_t (z : Z) : Z := (z `mod` 18446744073709551616)%Z.

Definition size_mul (a b : Z) : Z := to_size_t (a * b).

Definition int_add (a b : Z) : Z := to_int (a + b).
Definition int_sub (a b : Z) : Z := to_int (a - b).

(** [a / b] and [a % b] of C: truncation towards zero; [b = 0] and
    [INT_MIN / -1] have no result. *)
Definition int_div (a b : Z) : option Z :=
  if bool_decide (b = 0 ∨ (a = INT_MIN ∧ b = -1))%Z then None
  else Some (Z.quot a b).
Definition int_rem (a b : Z) : option Z :=
  if bool_decide (b = 0 ∨ (a = INT_MIN ∧ b = -1))%Z then None
  else Some (Z.rem a b).

Definition in_int (z : Z) : Prop := (INT_MIN ≤ z ≤ INT_MAX)%Z.

(** [static_cast<int>(v.size())]. *)
Definition int_size {A} (l : list A) : Z := to_int (Z.of_nat (length l)).

End CInt.

(** ** Character classes of the C library, in the "C" locale *)
Module CType.

Definition isspace (c : ascii) : bool :=
  let n := nat_of_ascii c in
  (n =? 32)%nat || ((9 <=? n)%nat && (n <=? 13)%nat).

Definition isdigit (c : ascii) : bool :=
  let n := nat_of_ascii c in (48 <=? n)%nat && (n <=? 57)%nat.

Definition tolower (c : ascii) : ascii :=
  let n := nat_of_ascii c in
  if ((65 <=? n)%nat && (n <=? 90)%nat) then ascii_of_nat (n + 32) else c.

(** The line feed and the double quote, which a string literal cannot hold. *)
Definition nl : string := String (ascii_of_nat 10) EmptyString.
Definition dq : string := String (ascii_of_nat 34) EmptyString.

End CType.

(** ** The weekly shift scheduler (scheduler.cpp) *)
Module Scheduler.
Import CInt CType.

Definition DAYS : list string := ["Mon"; "Tue"; "Wed"; "Thu"; "Fri"; "Sat"; "Sun"].
Definition SHIFTS : list string := ["morning"; "afternoon"; "evening"].
Definition SHIFT_SET : gset string := list_to_set SHIFTS.

Record Config := {
  min_per_shift : Z;
  max_per_shift : Z;
  max_days_per_employee : Z;
  random_seed : Z
}.

Definition default_config : Config :=
  {| min_per_shift := 2; max_per_shift := 4;
     max_days_per_employee := 5; random_seed := 42 |}.

(** The four fields hold values of their C++ types. *)
Definition config_in_range (cfg : Config) : Prop :=
  in_int (min_per_shift cfg) ∧ in_int (max_per_shift cfg) ∧
  in_int (max_days_per_employee cfg) ∧ (0 ≤ random_seed cfg < 4294967296)%Z.

Abbreviation Schedule := (gmap string (gmap string (list string))).
Abbreviation Preferences := (gmap string (gmap string (list string))).

Inductive PrefValue :=
  | PrefOne (s : string)
  | PrefMany (v : list string).

Abbreviation RawPreferences := (gmap string (gmap string PrefValue)).

(** What a call ends in: a value, one of the two exceptions the function
    throws, or a trapping division. *)
Inductive outcome (A : Type) :=
  | Ok (a : A)
  | InvalidArgument (msg : string)
  | RuntimeError (msg : string)
  | Undefined.
Arguments Ok {A} a.
Arguments InvalidArgument {A} msg.
Arguments RuntimeError {A} msg.
Arguments Undefined {A}.

(** *** String helpers *)

Fixpoint ltrim (s : string) : string :=
  match s with
  | String c s' => if isspace c then ltrim s' else s
  | EmptyString => EmptyString
  end.

(** The index [i] at which the loop of [rtrim] stops, started at [i]. *)
Fixpoint rtrim_index (s : string) (i : nat) : nat :=
  match i with
  | O => O
  | S j =>
      match String.get j s with
      | Some c => if isspace c then rtrim_index s j else i
      | None => i
      end
  end.

Definition rtrim (s : string) : string :=
  match s with
  | EmptyString => s
  | _ => String.substring 0 (rtrim_index s (String.length s)) s
  end.

Definition trim (s : string) : string := rtrim (ltrim s).

Fixpoint to_lower (s : string) : string :=
  match s with
  | EmptyString => EmptyString
  | String c s' => String (tolower c) (to_lower s')
  end.

(** [std::to_string] of an [int] and of a [size_t]. *)
Definition to_string (z : Z) : string := pretty z.
Definition size_to_string (n : nat) : string := pretty n.

(** One turn of the loop of [unique_cleaned]; the state is [(out, seen)]. *)
Definition unique_cleaned_step (acc : list string * gset string) (n : string)
    : list string * gset string :=
  let n := trim n in
  if bool_decide (n = "") then acc
  else if bool_decide (n ∈ acc.2) then acc
  else (acc.1 ++ [n], {[n]} ∪ acc.2).

Definition unique_cleaned (names : list string) : list string :=
  (fold_left unique_cleaned_step names ([], ∅)).1.

(** *** Preference normalization *)

Definition recognized (s : string) : bool :=
  bool_decide (s ≠ "") && bool_decide (s ∈ SHIFT_SET).

Definition clean_label (s : string) : string := to_lower (trim s).

(** The body shared by the two branches: clean, test, [push_back]. *)
Definition push_label (ranked : list string) (s : string) : list string :=
  let s := clean_label s in
  if recognized s then ranked ++ [s] else ranked.

Definition rank_day (per_day : gmap string PrefValue) (day : string) : list string :=
  match per_day !! day with
  | Some (PrefOne s) => push_label [] s
  | Some (PrefMany vec) => fold_left push_label vec []
  | None => []
  end.

Definition normalize_employee (per_day : gmap string PrefValue)
    : gmap string (list string) :=
  fold_left (λ emp_map day, <[day := rank_day per_day day]> emp_map) DAYS ∅.

Definition normalize_preferences (raw_prefs : RawPreferences) : Preferences :=
  map_fold (λ emp per_day prefs, <[emp := normalize_employee per_day]> prefs)
    ∅ raw_prefs.

(** *** Feasibility *)

Definition infeasible_message (required supply need_more : Z) : string :=
  "Infeasible: need at least " +:+ to_string required +:+
  " total shift assignments, but employee supply caps at " +:+
  to_string supply +:+ ". Consider adding ~" +:+ to_string need_more +:+
  " more employees or increasing max_days_per_employee.".

Definition required_slots (cfg : Config) : Z :=
  to_int (size_mul (size_mul (Z.of_nat (length DAYS)) (Z.of_nat (length SHIFTS)))
            (to_size_t (min_per_shift cfg))).

Definition supply_slots (employees : list string) (cfg : Config) : Z :=
  to_int (size_mul (Z.of_nat (length employees))
            (to_size_t (max_days_per_employee cfg))).

Definition feasible_or_raise (employees : list string) (cfg : Config) : outcome unit :=
  let required := required_slots cfg in
  let supply := supply_slots employees cfg in
  if (supply <? required)%Z then
    let deficit := int_sub required supply in
    match int_div deficit (max_days_per_employee cfg),
          int_rem deficit (max_days_per_employee cfg) with
    | Some q, Some r =>
        let need_more := int_add q (if (r =? 0)%Z then 0 else 1) in
        RuntimeError (infeasible_message required supply need_more)
    | _, _ => Undefined
    end
  else Ok tt.

(** *** The state of [schedule_employees] *)

Record State := {
  sched : Schedule;
  assigned_on_day : gmap string (gset string);
  days_worked : gmap string Z;
  warnings : list string;
  carry_over_next_day : gmap string (list string)
}.

(** [m[k]] of an [unordered_map]: a missing key reads as the empty value. *)
Definition slot (sc : Schedule) (day shift : string) : list string :=
  default [] (sc !! day ≫= (.!! shift)).
Definition set_slot (sc : Schedule) (day shift : string) (v : list string) : Schedule :=
  <[day := <[shift := v]> (default ∅ (sc !! day))]> sc.
Definition assigned (st : State) (day : string) : gset string :=
  default ∅ (assigned_on_day st !! day).
Definition worked (st : State) (emp : string) : Z :=
  default 0%Z (days_worked st !! emp).
Definition carry (st : State) (day : string) : list string :=
  default [] (carry_over_next_day st !! day).
Definition pref_of (prefs : Preferences) (emp day : string) : list string :=
  default [] (prefs !! emp ≫= (.!! day)).

Definition empty_schedule : Schedule :=
  fold_left (λ sc day,
    <[day := fold_left (λ per_shift s, <[s := []]> per_shift) SHIFTS
                (default ∅ (sc !! day))]> sc) DAYS ∅.

Definition init_state (employees : list string) : State :=
  {| sched := empty_schedule;
     assigned_on_day := fold_left (λ m d, <[d := ∅]> m) DAYS ∅;
     days_worked := fold_left (λ m e, <[e := 0%Z]> m) employees ∅;
     warnings := [];
     carry_over_next_day := fold_left (λ m d, <[d := []]> m) DAYS ∅ |}.

(** The three statements every placement consists of:
    [sched[day][shift].push_back(emp); assigned_on_day[day].insert(emp);
     days_worked[emp] += 1]. *)
Definition assign (st : State) (day shift emp : string) : State :=
  {| sched := set_slot (sched st) day shift (slot (sched st) day shift ++ [emp]);
     assigned_on_day := <[day := {[emp]} ∪ assigned st day]> (assigned_on_day st);
     days_worked := <[emp := int_add (worked st emp) 1]> (days_worked st);
     warnings := warnings st;
     carry_over_next_day := carry_over_next_day st |}.

Definition push_warning (st : State) (w : string) : State :=
  {| sched := sched st; assigned_on_day := assigned_on_day st;
     days_worked := days_worked st; warnings := warnings st ++ [w];
     carry_over_next_day := carry_over_next_day st |}.

Definition push_carry (st : State) (day emp : string) : State :=
  {| sched := sched st; assigned_on_day := assigned_on_day st;
     days_worked := days_worked st; warnings := warnings st;
     carry_over_next_day := <[day := carry st day ++ [emp]]> (carry_over_next_day st) |}.

Definition shift_has_capacity (cfg : Config) (st : State) (day shift : string) : bool :=
  if (max_per_shift cfg <=? 0)%Z then true
  else (int_size (slot (sched st) day shift) <? max_per_shift cfg)%Z.

(** *** The seeded generator

    [std::mt19937] and [std::shuffle] are the C++ library's.  The scheduler
    relies on two facts only: the generator is a value built from the seed
    alone, and [shuffle] rearranges its argument. *)
Record Shuffler := {
  rng_state : Type;
  mt19937 : Z → rng_state;
  shuffle : list string → rng_state → list string * rng_state;
  shuffle_perm : ∀ l g, (shuffle l g).1 ≡ₚ l
}.

(** *** Day-by-day greedy assignment *)

(** The candidate order of a day: the carried-over employees, then the
    others in first-seen order. *)
Definition day_order (st : State) (employees : list string) (day : string)
    : list string :=
  let carry_set : gset string := list_to_set (carry st day) in
  carry st day ++ filter (λ e, e ∉ carry_set) employees.

(** One turn of the loop over [order] at a given [rank]. *)
Definition try_rank (cfg : Config) (prefs : Preferences) (day : string)
    (rank : nat) (st : State) (emp : string) : State :=
  if bool_decide (emp ∈ assigned st day) then st
  else if (max_days_per_employee cfg <=? worked st emp)%Z then st
  else
    let ranked := pref_of prefs emp day in
    if (int_size ranked <=? Z.of_nat rank)%Z then st
    else
      match ranked !! rank with
      | None => st
      | Some target =>
          if bool_decide (target ∈ SHIFT_SET) then
            if shift_has_capacity cfg st day target
            then assign st day target emp else st
          else st
      end.

(** [ranked] followed by the shifts it does not mention. *)
Definition try_order (ranked : list string) : list string :=
  let seen : gset string := list_to_set ranked in
  ranked ++ filter (λ s, s ∉ seen) SHIFTS.

(** The loop over [try_order]: the state after the first placement that
    succeeds, or [None] when none does ([placed] stays false). *)
Fixpoint place_first (cfg : Config) (st : State) (day emp : string)
    (order : list string) : option State :=
  match order with
  | [] => None
  | s :: rest =>
      if shift_has_capacity cfg st day s then Some (assign st day s emp)
      else place_first cfg st day emp rest
  end.

(** One turn of the fallback loop of day number [di]. *)
Definition fallback (cfg : Config) (prefs : Preferences) (di : nat)
    (day : string) (st : State) (emp : string) : State :=
  if bool_decide (emp ∈ assigned st day) then st
  else if (max_days_per_employee cfg <=? worked st emp)%Z then st
  else
    let ranked := pref_of prefs emp day in
    match ranked with
    | [] => st
    | _ =>
        match place_first cfg st day emp (try_order ranked) with
        | Some st' => st'
        | None =>
            match DAYS !! (di + 1)%nat with
            | Some next_day => push_carry st next_day emp
            | None => st
            end
        end
    end.

Definition schedule_day (cfg : Config) (prefs : Preferences)
    (employees : list string) (st : State) (di : nat) : State :=
  let day := default "" (DAYS !! di) in
  let order := day_order st employees day in
  let st :=
    fold_left (λ st rank, fold_left (try_rank cfg prefs day rank) order st)
      [0; 1; 2]%nat st in
  fold_left (fallback cfg prefs di day) order st.

(** *** Minimum-staffing backfill *)

Definition staffing_warning (day shift : string) (have : nat) (min : Z) : string :=
  "Warning: Could not meet min staffing for " +:+ day +:+ " " +:+ shift +:+
  " (" +:+ size_to_string have +:+ "/" +:+ to_string min +:+
  "). Consider more staff or relaxing caps.".

(** The loop over the shuffled candidates; [added] counts the placements. *)
Fixpoint backfill_take (cfg : Config) (day shift : string) (need : Z)
    (candidates : list string) (added : Z) (st : State) : State :=
  match candidates with
  | [] => st
  | emp :: rest =>
      if ((0 <? max_per_shift cfg)%Z &&
          (max_per_shift cfg <=? int_size (slot (sched st) day shift))%Z)
      then st
      else
        let st := assign st day shift emp in
        let added := int_add added 1 in
        if (need <=? added)%Z then st
        else backfill_take cfg day shift need rest added st
  end.

Definition backfill_slot (S : Shuffler) (cfg : Config) (employees : list string)
    (day : string) (p : State * rng_state S) (shift : string)
    : State * rng_state S :=
  let '(st, g) := p in
  let have := int_size (slot (sched st) day shift) in
  let need := int_sub (min_per_shift cfg) have in
  if (need <=? 0)%Z then (st, g)
  else
    let candidates :=
      filter (λ e, (e ∉ assigned st day) ∧
                   (worked st e < max_days_per_employee cfg)%Z) employees in
    let '(candidates, g) := shuffle S candidates g in
    let st := backfill_take cfg day shift need candidates 0 st in
    let st :=
      if (int_size (slot (sched st) day shift) <? min_per_shift cfg)%Z
      then push_warning st
             (staffing_warning day shift (length (slot (sched st) day shift))
                (min_per_shift cfg))
      else st in
    (st, g).

Definition backfill (S : Shuffler) (cfg : Config) (employees : list string)
    (p : State * rng_state S) : State * rng_state S :=
  fold_left (λ p day, fold_left (backfill_slot S cfg employees day) SHIFTS p)
    DAYS p.

(** *** Maximum-capacity enforcement *)

Definition relocation_note (emp day shift : string) : string :=
  "Note: Could not relocate " +:+ emp +:+ " from " +:+ day +:+ " " +:+ shift +:+
  "; leaving unassigned.".

(** [vec.pop_back()] and the conditional erase that follows it. *)
Definition pop_back (st : State) (day shift emp : string) : State :=
  let sc := set_slot (sched st) day shift (removelast (slot (sched st) day shift)) in
  if bool_decide (emp ∈ assigned st day) then
    {| sched := sc;
       assigned_on_day := <[day := assigned st day ∖ {[emp]}]> (assigned_on_day st);
       days_worked := <[emp := int_sub (worked st emp) 1]> (days_worked st);
       warnings := warnings st;
       carry_over_next_day := carry_over_next_day st |}
  else
    {| sched := sc; assigned_on_day := assigned_on_day st;
       days_worked := days_worked st; warnings := warnings st;
       carry_over_next_day := carry_over_next_day st |}.

(** The loop over the other shifts of the same day. *)
Fixpoint relocate_same_day (cfg : Config) (st : State) (day shift emp : string)
    (shifts : list string) : option State :=
  match shifts with
  | [] => None
  | s2 :: rest =>
      if bool_decide (s2 = shift) then relocate_same_day cfg st day shift emp rest
      else if ((int_size (slot (sched st) day s2) <? max_per_shift cfg)%Z &&
               bool_decide (emp ∉ assigned st day))
      then Some (assign st day s2 emp)
      else relocate_same_day cfg st day shift emp rest
  end.

(** The loop over the shifts of the next day. *)
Fixpoint relocate_next_day (cfg : Config) (st : State) (next_day emp : string)
    (shifts : list string) : option State :=
  match shifts with
  | [] => None
  | s :: rest =>
      if bool_decide (emp ∈ assigned st next_day)
      then relocate_next_day cfg st next_day emp rest
      else if ((max_per_shift cfg <=? 0)%Z ||
               (int_size (slot (sched st) next_day s) <? max_per_shift cfg)%Z)
      then Some (assign st next_day s emp)
      else relocate_next_day cfg st next_day emp rest
  end.

(** [find(DAYS.begin(), DAYS.end(), day)] as an index. *)
Definition day_index (day : string) : option nat :=
  fst <$> (list_find (λ d, d = day) DAYS).

(** One turn of the [while] loop, for the popped employee [emp]. *)
Definition relocate (cfg : Config) (st : State) (day shift emp : string) : State :=
  let st := pop_back st day shift emp in
  match relocate_same_day cfg st day shift emp SHIFTS with
  | Some st' => st'
  | None =>
      let moved :=
        di ← day_index day;
        next_day ← DAYS !! (di + 1)%nat;
        relocate_next_day cfg st next_day emp SHIFTS in
      match moved with
      | Some st' => st'
      | None => push_warning st (relocation_note emp day shift)
      end
  end.

(** The [while] loop of one slot.  Every turn shortens the slot by one and
    nothing is pushed back to it, so [fuel] equal to its length suffices. *)
Fixpoint enforce_loop (fuel : nat) (cfg : Config) (day shift : string)
    (st : State) : State :=
  match fuel with
  | O => st
  | S fuel =>
      let vec := slot (sched st) day shift in
      if (max_per_shift cfg <? int_size vec)%Z then
        match last vec with
        | Some emp => enforce_loop fuel cfg day shift (relocate cfg st day shift emp)
        | None => st
        end
      else st
  end.

Definition enforce_slot (cfg : Config) (day : string) (st : State)
    (shift : string) : State :=
  enforce_loop (length (slot (sched st) day shift)) cfg day shift st.

Definition enforce (cfg : Config) (st : State) : State :=
  if (0 <? max_per_shift cfg)%Z then
    fold_left (λ st day, fold_left (enforce_slot cfg day) SHIFTS st) DAYS st
  else st.

(** *** The scheduler *)

Definition schedule_employees (S : Shuffler) (employees : list string)
    (raw_preferences : RawPreferences) (cfg : Config)
    : outcome (Schedule * list string) :=
  let rng := mt19937 S (random_seed cfg) in
  let employees := unique_cleaned employees in
  match employees with
  | [] => InvalidArgument "No employees provided."
  | _ =>
      match feasible_or_raise employees cfg with
      | Ok _ =>
          let prefs := normalize_preferences raw_preferences in
          let st := init_state employees in
          let st :=
            fold_left (schedule_day cfg prefs employees)
              (seq 0 (length DAYS)) st in
          let '(st, _) := backfill S cfg employees (st, rng) in
          let st := enforce cfg st in
          Ok (sched st, warnings st)
      | InvalidArgument msg => InvalidArgument msg
      | RuntimeError msg => RuntimeError msg
      | Undefined => Undefined
      end
  end.

(** *** What may differ from one run to the next

    A run reads two things that the arguments do not fix: the order in
    which the loop of [normalize_preferences] meets the entries of the
    [unordered_map], and the generator behind [rng]. *)

(** One turn of the outer loop of [normalize_preferences], on the entry
    [(emp, per_day)]: [prefs[emp]] is created empty when it is missing, and
    the seven days are written into it. *)
Definition normalize_entry (prefs : Preferences)
    (entry : string * gmap string PrefValue) : Preferences :=
  let '(emp, per_day) := entry in
  let emp_map := default ∅ (prefs !! emp) in
  <[emp := fold_left (λ emp_map day, <[day := rank_day per_day day]> emp_map)
             DAYS emp_map]> prefs.

(** [normalize_preferences] when the table is iterated in the order
    [entries]. *)
Definition normalize_preferences_along
    (entries : list (string * gmap string PrefValue)) : Preferences :=
  fold_left normalize_entry entries ∅.

(** [schedule_employees] when the table of raw preferences is iterated in
    the order [entries]. *)
Definition schedule_employees_in_order (S : Shuffler) (employees : list string)
    (entries : list (string * gmap string PrefValue)) (cfg : Config)
    : outcome (Schedule * list string) :=
  let rng := mt19937 S (random_seed cfg) in
  let employees := unique_cleaned employees in
  match employees with
  | [] => InvalidArgument "No employees provided."
  | _ =>
      match feasible_or_raise employees cfg with
      | Ok _ =>
          let prefs := normalize_preferences_along entries in
          let st := init_state employees in
          let st :=
            fold_left (schedule_day cfg prefs employees)
              (seq 0 (length DAYS)) st in
          let '(st, _) := backfill S cfg employees (st, rng) in
          let st := enforce cfg st in
          Ok (sched st, warnings st)
      | InvalidArgument msg => InvalidArgument msg
      | RuntimeError msg => RuntimeError msg
      | Undefined => Undefined
      end
  end.

(** Two generators that shuffle alike from states related by [R]: the same
    list comes out, and the states after it are related again. *)
Definition same_shuffles (S1 S2 : Shuffler)
    (R : rng_state S1 → rng_state S2 → Prop) : Prop :=
  ∀ l g1 g2, R g1 g2 →
    (shuffle S1 l g1).1 = (shuffle S2 l g2).1 ∧
    R (shuffle S1 l g1).2 (shuffle S2 l g2).2.

(** *** Reading a schedule *)

(** Everybody working on [day], shift after shift, and over the week. *)
Definition day_list (sc : Schedule) (day : string) : list string :=
  SHIFTS ≫= slot sc day.
Definition week_list (sc : Schedule) : list string :=
  DAYS ≫= day_list sc.

(** The number of shift-slots of the week that hold [emp]. *)
Definition shift_slots (sc : Schedule) (emp : string) : nat :=
  length (filter (λ x, x = emp) (week_list sc)).

(** *** Notions the lemmas are stated with *)

(** The states between the passes, for the cleaned list [employees]. *)
Definition after_days (cfg : Config) (raw : RawPreferences)
    (employees : list string) : State :=
  fold_left (schedule_day cfg (normalize_preferences raw) employees)
    (seq 0 (length DAYS)) (init_state employees).

Definition after_backfill (S : Shuffler) (cfg : Config)
    (raw : RawPreferences) (employees : list string) : State :=
  (backfill S cfg employees
     (after_days cfg raw employees, mt19937 S (random_seed cfg))).1.

(** The invariant of the scheduling state: nobody twice on a day, the day's
    set knows everybody placed, the weekly counter covers the placements and
    stays under the cap, and a positive cap on a shift is respected. *)
Record Inv (cfg : Config) (st : State) : Prop := {
  inv_nodup : ∀ d, NoDup (day_list (sched st) d);
  inv_assigned : ∀ d e, e ∈ day_list (sched st) d → e ∈ assigned st d;
  inv_count : ∀ e, (Z.of_nat (shift_slots (sched st) e) ≤ worked st e)%Z;
  inv_worked : ∀ e, (0 ≤ worked st e ≤ Z.max 0 (max_days_per_employee cfg))%Z;
  inv_size : ∀ d s, (0 < max_per_shift cfg)%Z →
    (int_size (slot (sched st) d s) ≤ max_per_shift cfg)%Z
}.

(** A short-staffed slot has its warning. *)
Definition reported (cfg : Config) (st : State) (day shift : string) : Prop :=
  (Z.of_nat (length (slot (sched st) day shift)) < min_per_shift cfg)%Z →
  staffing_warning day shift (length (slot (sched st) day shift))
    (min_per_shift cfg) ∈ warnings st.

(** A generator to run the scheduler with: a linear congruential generator
    driving a selection shuffle.  It stands for no particular C++ library. *)
Definition lcg_next (g : Z) : Z := ((g * 48271 + 11) `mod` 2147483647)%Z.

(** Splits off the element at index [i] (the head when [i] is out of range). *)
Fixpoint extract (i : nat) (l : list string) : option (string * list string) :=
  match l with
  | [] => None
  | x :: l' =>
      match i with
      | O => Some (x, l')
      | S i' =>
          match extract i' l' with
          | Some (y, r) => Some (y, x :: r)
          | None => Some (x, l')
          end
      end
  end.

Fixpoint lcg_shuffle_go (fuel : nat) (l : list string) (g : Z) : list string * Z :=
  match fuel with
  | O => (l, g)
  | S fuel =>
      let g' := lcg_next g in
      match extract (Z.to_nat (g' `mod` Z.of_nat (length l))) l with
      | Some (x, r) => let '(r', g'') := lcg_shuffle_go fuel r g' in (x :: r', g'')
      | None => (l, g)
      end
  end.

Definition lcg_shuffle (l : list string) (g : Z) : list string * Z :=
  lcg_shuffle_go (length l) l g.

(** A second invariant: only employees are placed or carried over, a
    positive cap on a shift is kept by the length of its list, and the 21
    slots stay in the map. *)
Record Roster (cfg : Config) (employees : list string) (st : State) : Prop := {
  roster_members : ∀ d s e, e ∈ slot (sched st) d s → e ∈ employees;
  roster_carry : ∀ d e, e ∈ carry st d → e ∈ employees;
  roster_room : (0 < max_per_shift cfg)%Z → ∀ d s,
    (Z.of_nat (length (slot (sched st) d s)) ≤ max_per_shift cfg)%Z;
  roster_keys : ∀ d s, d ∈ DAYS → s ∈ SHIFTS →
    is_Some (sched st !! d ≫= (.!! s))
}.

(** [e] is in no slot. *)
Definition absent (e : string) (st : State) : Prop :=
  ∀ d s, e ∉ slot (sched st) d s.

(** The 21 slots in the order of the backfill pass, and the warnings of
    those that are short in a schedule. *)
Definition all_slots : list (string * string) :=
  d ← DAYS; s ← SHIFTS; [(d, s)].

Definition short_warning (cfg : Config) (sc : Schedule) (k : string * string)
    : list string :=
  if (Z.of_nat (length (slot sc k.1 k.2)) <? min_per_shift cfg)%Z
  then [staffing_warning k.1 k.2 (length (slot sc k.1 k.2)) (min_per_shift cfg)]
  else [].

Definition short_slot_warnings (cfg : Config) (sc : Schedule) : list string :=
  all_slots ≫= short_warning cfg sc.

(** The totals of the feasibility check as mathematical integers. *)
Definition required_total (cfg : Config) : Z := (7 * 3 * min_per_shift cfg)%Z.
Definition supply_cap (names : list string) (cfg : Config) : Z :=
  (Z.of_nat (length (unique_cleaned names)) * max_days_per_employee cfg)%Z.

(** [ceil (a / b)] for a positive [b]. *)
Definition ceil_div (a b : Z) : Z := ((a + b - 1) / b)%Z.

(** The labels a raw entry lists, in order. *)
Definition labels (v : option PrefValue) : list string :=
  match v with
  | None => []
  | Some (PrefOne s) => [s]
  | Some (PrefMany vec) => vec
  end.

(** Sample inputs the lemmas are run on. *)
Definition nine_employees : list string :=
  ["Alice"; "Bob"; "Charlie"; "Diana"; "Evan"; "Farah"; "Grace"; "Henry"; "Iris"].

Definition sample_preferences : RawPreferences :=
  {[ "Alice" := {[ "Mon" := PrefMany ["morning"; "afternoon"];
                   "Tue" := PrefOne "morning" ]};
     "Bob" := {[ "Mon" := PrefOne " Evening ";
                 "Tue" := PrefMany ["evening"; "afternoon"] ]} ]}.

Definition is_ok {A} (r : outcome A) : bool :=
  match r with Ok _ => true | _ => false end.

End Scheduler.

(** ** The kinship rules (Familytree.pl)

    Atoms are strings.  Every rule is given twice: as the relation its
    clauses define, and as the list of answers Prolog's depth-first search
    returns, in its order and with its repetitions.  The recursive searches
    take a bound on the depth of the recursion. *)
Module Kinship.

Definition male : list string := ["john"; "bob"; "eric"; "frank"; "ian"].
Definition female : list string :=
  ["anna"; "clara"; "diana"; "eva"; "grace"; "helen"].

Definition parent_facts : list (string * string) :=
  [("john", "bob"); ("anna", "bob"); ("john", "clara"); ("anna", "clara");
   ("bob", "eva"); ("diana", "eva"); ("bob", "frank"); ("diana", "frank");
   ("clara", "grace"); ("eric", "grace");
   ("frank", "ian"); ("helen", "ian")].

Section rules.
Variable parent : list (string * string).

(** The answers of [parent(a, D)] and of [parent(P, x)]. *)
Definition children (a : string) : list string :=
  snd <$> filter (λ f, f.1 = a) parent.
Definition parents (x : string) : list string :=
  fst <$> filter (λ f, f.2 = x) parent.

(** [sibling(X, Y) :- parent(P, X), parent(P, Y), X \= Y.] *)
Definition sibling (x y : string) : Prop :=
  ∃ p, (p, x) ∈ parent ∧ (p, y) ∈ parent ∧ x ≠ y.

(** The answers [Y] of [sibling(x, Y)]. *)
Definition sibling_answers (x : string) : list string :=
  p ← parents x; filter (λ y, x ≠ y) (children p).

Inductive ancestor : string → string → Prop :=
  | ancestor_parent a d : (a, d) ∈ parent → ancestor a d
  | ancestor_step a m d : (a, m) ∈ parent → ancestor m d → ancestor a d.

(** The answers [D] of [ancestor(a, D)]. *)
Fixpoint ancestor_answers (depth : nat) (a : string) : list string :=
  match depth with
  | O => []
  | S depth => children a ++ (children a ≫= ancestor_answers depth)
  end.

(** [ancestor_n(A, D, N)] for a given integer [N]: the first clause needs
    [N = 1], the second [N > 1]. *)
Inductive ancestor_n : string → string → Z → Prop :=
  | ancestor_n_one a d : (a, d) ∈ parent → ancestor_n a d 1
  | ancestor_n_more a m d n :
      (1 < n)%Z → (a, m) ∈ parent → ancestor_n m d (n - 1) → ancestor_n a d n.

Fixpoint ancestor_n_steps (k : nat) (a : string) : list string :=
  match k with
  | O => []
  | S O => children a
  | S k' => children a ≫= ancestor_n_steps k'
  end.

(** The answers [D] of [ancestor_n(a, D, n)]. *)
Definition ancestor_n_answers (a : string) (n : Z) : list string :=
  ancestor_n_steps (Z.to_nat n) a.

Definition grandparent (gp gc : string) : Prop := ancestor_n gp gc 2.
Definition grandparent_answers (gp : string) : list string :=
  ancestor_n_answers gp 2.

Inductive descendant : string → string → Prop :=
  | descendant_parent a d : (a, d) ∈ parent → descendant a d
  | descendant_step a m d : (a, m) ∈ parent → descendant m d → descendant a d.

Fixpoint descendant_answers (depth : nat) (a : string) : list string :=
  match depth with
  | O => []
  | S depth => children a ++ (children a ≫= descendant_answers depth)
  end.

(** [cousin(X, Y) :- X \= Y, parent(PX, X), parent(PY, Y), sibling(PX, PY).] *)
Definition cousin (x y : string) : Prop :=
  x ≠ y ∧ ∃ px py, (px, x) ∈ parent ∧ (py, y) ∈ parent ∧ sibling px py.

(** The proofs of the ground query [cousin(x, y)], as the pairs
    [(PX, PY)] found, one per success. *)
Definition cousin_proofs (x y : string) : list (string * string) :=
  if decide (x ≠ y) then
    px ← parents x; py ← parents y;
    (λ _, (px, py)) <$> filter (λ z, z = py) (sibling_answers px)
  else [].

End rules.

End Kinship.

(** ** Binary64 numbers

    [double] of C and C++ and [float] of OCaml are the kernel's binary64
    numbers, with the same round-to-nearest operations. *)
Module Double.

(** The conversion of an integer [z] with [|z| < 2^63]. *)
Definition of_Z (z : Z) : float :=
  match z with
  | Z0 => 0%float
  | Zpos _ => PrimFloat.of_uint63 (Uint63.of_Z z)
  | Zneg _ => (- PrimFloat.of_uint63 (Uint63.of_Z (- z)))%float
  end.

End Double.

(** ** What a command-line program leaves behind *)
Module Process.

Record output := {
  stdout : string;
  stderr : string;
  exit_code : Z
}.

(** [EXIT_FAILURE] and [EXIT_SUCCESS] of <stdlib.h> (POSIX values). *)
Definition EXIT_FAILURE : Z := 1.
Definition EXIT_SUCCESS : Z := 0.

End Process.

(** ** The functional statistics calculator (stats.ml) *)
Module StatsML.
Import CType Process.

(** OCaml's [int] has 63 bits. *)
Definition wrap63 (z : Z) : Z :=
  ((z + 4611686018427387904) `mod` 9223372036854775808 - 4611686018427387904)%Z.
Definition add (a b : Z) : Z := wrap63 (a + b).

(** A value, or one of the exceptions [Invalid_argument] and [Failure]. *)
Inductive result (A : Type) :=
  | Val (a : A)
  | Invalid_argument (msg : string)
  | Failure (msg : string).
Arguments Val {A} a.
Arguments Invalid_argument {A} msg.
Arguments Failure {A} msg.

(** What the runtime prints for an exception nobody catches. *)
Definition fatal_error {A} (r : result A) : string :=
  match r with
  | Val _ => ""
  | Invalid_argument msg =>
      "Fatal error: exception Invalid_argument(" +:+ dq +:+ msg +:+ dq +:+ ")" +:+ nl
  | Failure msg =>
      "Fatal error: exception Failure(" +:+ dq +:+ msg +:+ dq +:+ ")" +:+ nl
  end.

(** [List.sort compare] on integers. *)
Definition sort (xs : list Z) : list Z := merge_sort Z.le xs.

Definition mean (xs : list Z) : result float :=
  match xs with
  | [] => Invalid_argument "mean: empty list"
  | _ =>
      let '(sum, count) :=
        fold_left (λ '(s, c) x, (add s x, add c 1)) xs (0%Z, 0%Z) in
      Val (Double.of_Z sum / Double.of_Z count)%float
  end.

(** [List.nth], which raises when the index is out of the list. *)
Definition nth (s : list Z) (i : Z) : result Z :=
  if (i <? 0)%Z then Invalid_argument "List.nth"
  else match s !! Z.to_nat i with
       | Some x => Val x
       | None => Failure "nth"
       end.

Definition median (xs : list Z) : result float :=
  match xs with
  | [] => Invalid_argument "median: empty list"
  | _ =>
      let s := sort xs in
      let n := Z.of_nat (length s) in
      if (Z.rem n 2 =? 1)%Z then
        match nth s (Z.quot n 2) with
        | Val x => Val (Double.of_Z x)
        | Invalid_argument msg => Invalid_argument msg
        | Failure msg => Failure msg
        end
      else
        match nth s (Z.quot n 2 - 1) with
        | Val a =>
            match nth s (Z.quot n 2) with
            | Val b => Val (Double.of_Z (add a b) / 2)%float
            | Invalid_argument msg => Invalid_argument msg
            | Failure msg => Failure msg
            end
        | Invalid_argument msg => Invalid_argument msg
        | Failure msg => Failure msg
        end
  end.

(** [IntMap.update x (function None -> Some 1 | Some c -> Some (c + 1))]. *)
Definition bump (m : gmap Z Z) (x : Z) : gmap Z Z :=
  <[x := match m !! x with None => 1%Z | Some c => add c 1 end]> m.

Definition freq_map (xs : list Z) : gmap Z Z := fold_left bump xs ∅.

(** [IntMap.fold] and [IntMap.bindings] visit the keys in increasing order;
    the maximum does not depend on the order, and the filtered keys are
    sorted at the end. *)
Definition modes (xs : list Z) : result (list Z) :=
  match xs with
  | [] => Invalid_argument "modes: empty list"
  | _ =>
      let m := freq_map xs in
      let maxf := map_fold (λ _ c acc, Z.max c acc) 0%Z m in
      Val (sort (fst <$> filter (λ vc, vc.2 = maxf) (map_to_list m)))
  end.

(** [Printf]'s [%.6f] is a parameter, [fmt]. *)
Definition describe (fmt : float → string) (xs : list Z) : result string :=
  match mean xs with
  | Invalid_argument msg => Invalid_argument msg
  | Failure msg => Failure msg
  | Val m =>
      match median xs with
      | Invalid_argument msg => Invalid_argument msg
      | Failure msg => Failure msg
      | Val med =>
          match modes xs with
          | Invalid_argument msg => Invalid_argument msg
          | Failure msg => Failure msg
          | Val ms =>
              let modes_str := String.concat " " (pretty <$> ms) in
              Val ("Count : " +:+ pretty (length xs) +:+ nl +:+
                   "Mean  : " +:+ fmt m +:+ nl +:+
                   "Median: " +:+ fmt med +:+ nl +:+
                   "Mode  : [" +:+ modes_str +:+ "]" +:+ nl)
          end
      end
  end.

(** *** [int_of_string_opt], after the runtime's [parse_intnat] *)

Definition parse_digit (c : ascii) : option Z :=
  let n := nat_of_ascii c in
  if ((48 <=? n)%nat && (n <=? 57)%nat) then Some (Z.of_nat n - 48)%Z
  else if ((65 <=? n)%nat && (n <=? 70)%nat) then Some (Z.of_nat n - 65 + 10)%Z
  else if ((97 <=? n)%nat && (n <=? 102)%nat) then Some (Z.of_nat n - 97 + 10)%Z
  else None.

(** The sign, the rest of the string, the base and whether the number is
    read as signed. *)
Definition parse_sign_and_base (s : string) : Z * string * Z * bool :=
  let '(sign, p) :=
    match s with
    | String "-" r => ((-1)%Z, r)
    | String "+" r => (1%Z, r)
    | _ => (1%Z, s)
    end in
  match p with
  | String "0" (String c r) =>
      if bool_decide (c = "x" ∨ c = "X")%char then (sign, r, 16%Z, false)
      else if bool_decide (c = "o" ∨ c = "O")%char then (sign, r, 8%Z, false)
      else if bool_decide (c = "b" ∨ c = "B")%char then (sign, r, 2%Z, false)
      else if bool_decide (c = "u" ∨ c = "U")%char then (sign, r, 10%Z, false)
      else (sign, p, 10%Z, true)
  | _ => (sign, p, 10%Z, true)
  end.

(** The loop over the characters after the first digit; [res] is a 64-bit
    unsigned word.  [None] is the failure of [int_of_string]. *)
Fixpoint parse_digits (base : Z) (p : string) (res : Z) : option Z :=
  match p with
  | EmptyString => Some res
  | String c p' =>
      if bool_decide (c = "_"%char) then parse_digits base p' res
      else
        match parse_digit c with
        | None => None
        | Some d =>
            if (base <=? d)%Z then None
            else if (18446744073709551615 `quot` base <? res)%Z then None
            else
              let res' := ((base * res + d) `mod` 18446744073709551616)%Z in
              if (res' <? d)%Z then None else parse_digits base p' res'
        end
  end.

Definition int_of_string_opt (s : string) : option Z :=
  let '(sign, p, base, signedness) := parse_sign_and_base s in
  match p with
  | EmptyString => None
  | String c p' =>
      match parse_digit c with
      | None => None
      | Some d =>
          if (base <=? d)%Z then None
          else
            match parse_digits base p' d with
            | None => None
            | Some res =>
                let ok :=
                  if signedness then
                    if (0 <=? sign)%Z then (res <? 4611686018427387904)%Z
                    else (res <=? 4611686018427387904)%Z
                  else (res <? 9223372036854775808)%Z in
                if ok then Some (wrap63 (sign * res)) else None
            end
      end
  end.

(** *** The command line *)

Definition usage (prog : string) : string :=
  "Usage: " +:+ prog +:+ " <int1> <int2> ..." +:+ nl +:+
  "Example: " +:+ prog +:+ " 1 2 2 3 4 4 4 5" +:+ nl.

(** [List.map to_int args], left to right: the integers, or the first
    token that does not parse. *)
Fixpoint to_ints (args : list string) : list Z + string :=
  match args with
  | [] => inl []
  | s :: rest =>
      match int_of_string_opt s with
      | None => inr s
      | Some v =>
          match to_ints rest with
          | inl vs => inl (v :: vs)
          | inr bad => inr bad
          end
      end
  end.

(** [parse_cli]: the data, or what the process printed before it ended
    ([exit], or the exception of [argv.(0)] on an empty [argv]). *)
Definition parse_cli (argv : list string) : list Z + output :=
  match argv with
  | [] =>
      inr {| stdout := "";
             stderr := fatal_error
                         (Invalid_argument (A := unit) "index out of bounds");
             exit_code := 2 |}
  | [prog] => inr {| stdout := ""; stderr := usage prog; exit_code := 1 |}
  | prog :: args =>
      match to_ints args with
      | inl data => inl data
      | inr s =>
          inr {| stdout := "";
                 stderr := "Invalid integer: " +:+ s +:+ nl;
                 exit_code := 2 |}
      end
  end.

Definition main (fmt : float → string) (argv : list string) : output :=
  match parse_cli argv with
  | inr out => out
  | inl data =>
      match describe fmt data with
      | Val text => {| stdout := text; stderr := ""; exit_code := 0 |}
      | raised => {| stdout := ""; stderr := fatal_error raised; exit_code := 2 |}
      end
  end.

End StatsML.

(** ** The array-based statistics calculator (the C program) *)
Module StatsC.
Import CInt CType Process.

Definition LONG_MIN : Z := -9223372036854775808.
Definition LONG_MAX : Z := 9223372036854775807.

(** Arithmetic on [long long]. *)
Definition to_llong (z : Z) : Z :=
  ((z + 9223372036854775808) `mod` 18446744073709551616 - 9223372036854775808)%Z.

(** *** [strtol(s, &end, 10)] *)

Fixpoint skip_space (s : string) : string :=
  match s with
  | String c r => if isspace c then skip_space r else s
  | EmptyString => EmptyString
  end.

(** The decimal digits at the head of [s]: their value, whether there was
    one, and what follows them. *)
Fixpoint read_digits (s : string) (acc : Z) (any : bool) : Z * bool * string :=
  match s with
  | String c r =>
      if isdigit c
      then read_digits r (10 * acc + (Z.of_nat (nat_of_ascii c) - 48))%Z true
      else (acc, any, s)
  | EmptyString => (acc, any, EmptyString)
  end.

(** What [strtol] reports: the value read (before clamping to [long]),
    whether [errno] is [ERANGE], and the text at [end], which is the whole
    input when no digit was read. *)
Record strtol_result := {
  value : Z;
  erange : bool;
  at_end : string
}.

Definition strtol (s : string) : strtol_result :=
  let p := skip_space s in
  let '(negative, p) :=
    match p with
    | String "-" r => (true, r)
    | String "+" r => (false, r)
    | _ => (false, p)
    end in
  let '(v, any, rest) := read_digits p 0 false in
  if any then
    let v := if negative then (- v)%Z else v in
    {| value := v;
       erange := bool_decide (v < LONG_MIN ∨ LONG_MAX < v)%Z;
       at_end := rest |}
  else {| value := 0; erange := false; at_end := s |}.

(** [parse_int_strict]: [Some v] for the return value 1 with [*out = v]. *)
Definition parse_int_strict (s : string) : option Z :=
  let r := strtol s in
  if erange r || bool_decide (at_end r = s) || negb (bool_decide (at_end r = ""))
  then None
  else if ((value r <? INT_MIN)%Z || (INT_MAX <? value r)%Z) then None
  else Some (to_int (value r)).

(** *** The statistics; an array is the list of its cells *)

Definition mean (a : list Z) : float :=
  let sum := fold_left (λ sum x, to_llong (sum + x)) a 0%Z in
  (Double.of_Z sum / Double.of_Z (Z.of_nat (length a)))%float.

(** [None] stands for a read outside the array. *)
Definition median_sorted (sorted : list Z) : option float :=
  let n := length sorted in
  if (n `mod` 2 =? 1)%nat then
    x ← sorted !! (n / 2)%nat; Some (Double.of_Z x)
  else
    match n with
    | O => None
    | _ =>
        left ← sorted !! (n / 2 - 1)%nat;
        right ← sorted !! (n / 2)%nat;
        Some (Double.of_Z (int_add left right) / 2)%float
    end.

(** The inner loop: the length of the run of [value] that starts at [i]. *)
Fixpoint run_length (fuel : nat) (sorted : list Z) (i : nat) (value : Z)
    (count : nat) : nat :=
  match fuel with
  | O => count
  | S fuel =>
      match sorted !! (i + count)%nat with
      | Some x =>
          if bool_decide (x = value)
          then run_length fuel sorted i value (S count) else count
      | None => count
      end
  end.

Record modes_state := {
  pos : nat;
  maxf : Z;
  modes_out : list Z;
  modes_count : nat
}.

(** One turn of the outer loop, at a position that holds [value]. *)
Definition modes_step (sorted : list Z) (st : modes_state) (value : Z) : modes_state :=
  let count := run_length (length sorted) sorted (pos st) value 1 in
  let c := to_int (Z.of_nat count) in
  if (maxf st <? c)%Z then
    {| pos := pos st + count; maxf := c;
       modes_out := <[0%nat := value]> (modes_out st); modes_count := 1 |}
  else if (c =? maxf st)%Z then
    {| pos := pos st + count; maxf := maxf st;
       modes_out := <[modes_count st := value]> (modes_out st);
       modes_count := S (modes_count st) |}
  else
    {| pos := pos st + count; maxf := maxf st;
       modes_out := modes_out st; modes_count := modes_count st |}.

Fixpoint modes_loop (fuel : nat) (sorted : list Z) (st : modes_state) : modes_state :=
  match fuel with
  | O => st
  | S fuel =>
      match sorted !! pos st with
      | Some value => modes_loop fuel sorted (modes_step sorted st value)
      | None => st
      end
  end.

(** The buffer after the call, the number of modes returned and
    [*maxfreq_out]. *)
Definition modes_from_sorted (sorted : list Z) (buffer : list Z) : list Z * nat * Z :=
  match sorted with
  | [] => (buffer, O, 0%Z)
  | _ =>
      let st := modes_loop (length sorted) sorted
                  {| pos := 0; maxf := 0; modes_out := buffer; modes_count := 0 |} in
      (modes_out st, modes_count st, maxf st)
  end.

(** *** [main] *)

Definition usage (prog : string) : string :=
  "Usage: " +:+ prog +:+ " <int1> <int2> ..." +:+ nl +:+
  "Example: " +:+ prog +:+ " 1 2 2 3 4 4 4 5" +:+ nl.

(** The parsing loop: the array, or the first token refused. *)
Fixpoint parse_all (args : list string) : list Z + string :=
  match args with
  | [] => inl []
  | s :: rest =>
      match parse_int_strict s with
      | None => inr s
      | Some v =>
          match parse_all rest with
          | inl vs => inl (v :: vs)
          | inr bad => inr bad
          end
      end
  end.

(** The loop that prints the modes, separated by single spaces. *)
Fixpoint print_modes (modes : list Z) : string :=
  match modes with
  | [] => ""
  | [m] => pretty m
  | m :: rest => pretty m +:+ " " +:+ print_modes rest
  end.

(** [qsort] with [cmp_int] leaves the array in increasing order. *)
Definition qsort (a : list Z) : list Z := merge_sort Z.le a.

(** [printf]'s [%.6f] is the parameter [fmt]; [malloc] is taken to succeed,
    and the cells of a fresh block to hold zero. *)
Definition main (fmt : float → string) (argv : list string) : output :=
  match argv with
  | [] => {| stdout := ""; stderr := usage "(null)"; exit_code := EXIT_FAILURE |}
  | [prog] => {| stdout := ""; stderr := usage prog; exit_code := EXIT_FAILURE |}
  | prog :: args =>
      match parse_all args with
      | inr bad =>
          {| stdout := "";
             stderr := "Invalid integer: '" +:+ bad +:+ "'" +:+ nl;
             exit_code := EXIT_FAILURE |}
      | inl a =>
          let n := length a in
          let sorted := qsort a in
          let m := mean a in
          let '(modes, modes_count, maxfreq) :=
            modes_from_sorted sorted (replicate n 0%Z) in
          match median_sorted sorted with
          | None => {| stdout := ""; stderr := ""; exit_code := EXIT_FAILURE |}
          | Some med =>
              {| stdout :=
                   "Count : " +:+ pretty n +:+ nl +:+
                   "Mean  : " +:+ fmt m +:+ nl +:+
                   "Median: " +:+ fmt med +:+ nl +:+
                   "Mode  : " +:+ print_modes (take modes_count modes) +:+
                   " (frequency=" +:+ pretty maxfreq +:+ ")" +:+ nl;
                 stderr := "";
                 exit_code := EXIT_SUCCESS |}
          end
      end
  end.

End StatsC.

(** ** Notions the lemmas on the statistics are stated with *)
Module StatsSpec.

Definition Zsum (xs : list Z) : Z := foldr Z.add 0%Z xs.

(** How often [x] occurs in [l]. *)
Definition occurrences (x : Z) (l : list Z) : nat :=
  length (filter (λ y, y = x) l).

(** [f] is the largest number of occurrences of a value in [l], and [ms]
    lists the values that reach it, in increasing order. *)
Definition modes_of (l : list Z) (f : nat) (ms : list Z) : Prop :=
  (∀ x, (occurrences x l ≤ f)%nat) ∧
  (∀ x, x ∈ ms ↔ x ∈ l ∧ occurrences x l = f) ∧
  StronglySorted Z.lt ms ∧
  (l ≠ [] → ms ≠ []).

(** The invariant of the outer loop of [modes_from_sorted] on the sorted
    array [l]: the part before [pos] is made of whole runs, and the first
    [modes_count] cells of the buffer hold its modes. *)
Record modes_inv (l : list Z) (st : StatsC.modes_state) : Prop := {
  mi_pos : (StatsC.pos st ≤ length l)%nat;
  mi_boundary : ∀ j k x y,
    (j < StatsC.pos st)%nat → (StatsC.pos st ≤ k)%nat →
    l !! j = Some x → l !! k = Some y → (x < y)%Z;
  mi_modes : ∃ f,
    StatsC.maxf st = Z.of_nat f ∧ (f ≤ StatsC.pos st)%nat ∧
    modes_of (take (StatsC.pos st) l) f
      (take (StatsC.modes_count st) (StatsC.modes_out st));
  mi_count : (StatsC.modes_count st ≤ StatsC.pos st)%nat;
  mi_cap : (length l ≤ length (StatsC.modes_out st))%nat
}.

End StatsSpec.

(** ** The ride fares (ride_share.cpp) *)
Module RideShare.

Inductive Ride :=
  | StandardRide (rideID pickupLocation dropoffLocation : string) (distance : float)
  | PremiumRide (rideID pickupLocation dropoffLocation : string) (distance : float)
      (surgeMultiplier : float).

(** The constructor of [PremiumRide] with its default argument. *)
Definition make_premium (id pickup dropoff : string) (miles : float)
    (surge : option float) : Ride :=
  PremiumRide id pickup dropoff miles (default 1.0%float surge).

Definition miles (r : Ride) : float :=
  match r with
  | StandardRide _ _ _ d => d
  | PremiumRide _ _ _ d _ => d
  end.

Definition fare (r : Ride) : float :=
  match r with
  | StandardRide _ _ _ _ => (3.00 + miles r * 1.50)%float
  | PremiumRide _ _ _ _ surge => (5.00 + miles r * 2.50 * surge)%float
  end.

Definition rideType (r : Ride) : string :=
  match r with
  | StandardRide _ _ _ _ => "Standard"
  | PremiumRide _ _ _ _ _ => "Premium"
  end.

Record Driver := {
  driverID : string;
  driver_name : string;
  rating : float;
  assignedRides : list Ride
}.

Definition new_driver (id n : string) (r : float) : Driver :=
  {| driverID := id; driver_name := n; rating := r; assignedRides := [] |}.

Definition addRide (d : Driver) (ride : Ride) : Driver :=
  {| driverID := driverID d; driver_name := driver_name d; rating := rating d;
     assignedRides := assignedRides d ++ [ride] |}.

Definition totalEarnings (d : Driver) : float :=
  fold_left (λ sum r, (sum + fare r)%float) (assignedRides d) 0.0%float.

Record Rider := {
  riderID : string;
  rider_name : string;
  requestedRides : list Ride
}.

Definition requestRide (u : Rider) (ride : Ride) : Rider :=
  {| riderID := riderID u; rider_name := rider_name u;
     requestedRides := requestedRides u ++ [ride] |}.

(** The first two rides of the demonstration. *)
Definition r1 : Ride := StandardRide "R1001" "Downtown" "Airport" 15.2%float.
Definition r2 : Ride := make_premium "R1002" "UT Austin" "The Domain" 8.5%float
                          (Some 1.30%float).

End RideShare.

(** * Lemmas *)

(** ** Machine integers *)
Module CIntFacts.
Import CInt.

Ltac euclid := unfold in_int, INT_MIN, INT_MAX, int_add, int_sub, to_int, to_size_t, size_mul in *;
  Z.to_euclidean_division_equations; lia.

Lemma to_int_id z : in_int z → to_int z = z.
Proof. euclid. Qed.

Lemma to_int_range z : in_int (to_int z).
Proof. euclid. Qed.

Lemma to_int_succ_le z : (to_int (z + 1) ≤ to_int z + 1)%Z.
Proof. euclid. Qed.

Lemma to_int_le_nonneg z : (0 ≤ z)%Z → (to_int z ≤ z)%Z.
Proof. euclid. Qed.

Lemma to_int_to_size_t z : to_int (to_size_t z) = to_int z.
Proof. euclid. Qed.

Lemma to_int_size_mul a b : to_int (size_mul a (to_size_t b)) = to_int (a * b).
Proof.
  unfold size_mul. rewrite to_int_to_size_t.
  unfold to_int, to_size_t. f_equal.
  rewrite <- Zplus_mod_idemp_l, <- Zmult_mod_idemp_r.
  assert (∀ x, ((x `mod` 18446744073709551616) `mod` 4294967296 = x `mod` 4294967296)%Z) as ->.
  { intros x. Z.to_euclidean_division_equations. lia. }
  by rewrite Zmult_mod_idemp_r, Zplus_mod_idemp_l.
Qed.

Lemma int_size_small {A} (l : list A) :
  (Z.of_nat (length l) ≤ INT_MAX)%Z → int_size l = Z.of_nat (length l).
Proof. intros. apply to_int_id. unfold in_int, INT_MIN. lia. Qed.

Lemma int_size_le {A} (l : list A) : (int_size l ≤ Z.of_nat (length l))%Z.
Proof. apply to_int_le_nonneg. lia. Qed.

Lemma int_size_app_le {A} (l : list A) x : (int_size (l ++ [x]) ≤ int_size l + 1)%Z.
Proof.
  unfold int_size. rewrite length_app. simpl.
  replace (Z.of_nat (length l + 1)) with (Z.of_nat (length l) + 1)%Z by lia.
  apply to_int_succ_le.
Qed.

End CIntFacts.

(** ** The scheduler *)
Module SchedulerFacts.
Import CInt CType CIntFacts Scheduler.

(** *** Generic facts about loops *)

Lemma fold_left_preserves {A K} (P : A → Prop) (f : A → K → A) ks a :
  (∀ a k, P a → P (f a k)) → P a → P (fold_left f ks a).
Proof. intros Hf. revert a. induction ks; simpl; auto. Qed.

Lemma fold_left_preserves_in {A K} (P : A → Prop) (f : A → K → A) ks a :
  (∀ a k, k ∈ ks → P a → P (f a k)) → P a → P (fold_left f ks a).
Proof.
  revert a. induction ks as [|k ks IH]; simpl; intros a Hf Ha; [done|].
  apply IH.
  - intros a' k' Hk'. apply Hf. by right.
  - apply Hf; [by left|done].
Qed.

(** A loop whose turn for [k] establishes [P k], and whose other turns keep
    it, establishes [P k] for every key it visits. *)
Lemma fold_left_establishes {A K} (P : K → A → Prop) (f : A → K → A) ks a :
  NoDup ks →
  (∀ a k, P k (f a k)) →
  (∀ a k k', k ≠ k' → P k a → P k (f a k')) →
  ∀ k, k ∈ ks → P k (fold_left f ks a).
Proof.
  intros Hnd Hest Hkeep. revert a.
  induction Hnd as [|k1 ks Hk1 Hnd IH]; intros a k Hk; simpl.
  - by apply elem_of_nil in Hk.
  - apply elem_of_cons in Hk as [->|Hk]; [|by apply IH].
    apply (fold_left_preserves_in (P k1)); [|apply Hest].
    intros a' k' Hk' HP. apply Hkeep; [|done]. by intros ->.
Qed.

(** Appending [e] to the list of one key adds one [e] to the flattening. *)
Lemma bind_push {K} `{EqDecision K} (ks : list K) (f g : K → list string) k0 e :
  NoDup ks →
  (∀ k, k ≠ k0 → g k = f k) →
  g k0 ≡ₚ e :: f k0 →
  ks ≫= g ≡ₚ (if decide (k0 ∈ ks) then [e] else []) ++ (ks ≫= f).
Proof.
  intros Hnd Hne Hk0. induction Hnd as [|k ks Hk Hnd IH]; [done|].
  rewrite !bind_cons. destruct (decide (k = k0)) as [->|Hkk].
  - rewrite decide_True by (by left).
    rewrite decide_False in IH by done. rewrite IH, Hk0. done.
  - rewrite Hne by done. rewrite IH.
    destruct (decide (k0 ∈ ks)) as [Hin|Hin].
    + rewrite decide_True by (by right). simpl. by rewrite Permutation_middle.
    + rewrite decide_False; [done|]. by intros [?|?]%elem_of_cons.
Qed.

Lemma bind_same {K} (ks : list K) (f g : K → list string) :
  (∀ k, k ∈ ks → g k = f k) → ks ≫= g = ks ≫= f.
Proof.
  induction ks as [|k ks IH]; intros H; [done|].
  rewrite !bind_cons, H by (by left). f_equal. apply IH.
  intros k' Hk'. apply H. by right.
Qed.

(** *** Reads after writes *)

Lemma slot_set_slot sc d s v d' s' :
  slot (set_slot sc d s v) d' s' =
  if decide (d = d' ∧ s = s') then v else slot sc d' s'.
Proof.
  unfold slot, set_slot. destruct (decide (d = d')) as [->|Hd].
  - rewrite lookup_insert_eq. simpl. destruct (decide (s = s')) as [->|Hs].
    + rewrite lookup_insert_eq. by rewrite decide_True.
    + rewrite lookup_insert_ne by done. rewrite decide_False by (by intros [_ ?]).
      by destruct (sc !! d').
  - rewrite lookup_insert_ne by done. by rewrite decide_False by (by intros [? _]).
Qed.

Lemma slot_assign st d s e d' s' :
  slot (sched (assign st d s e)) d' s' =
  if decide (d = d' ∧ s = s') then slot (sched st) d s ++ [e]
  else slot (sched st) d' s'.
Proof. apply slot_set_slot. Qed.

Lemma assigned_assign st d s e d' :
  assigned (assign st d s e) d' =
  if decide (d = d') then {[e]} ∪ assigned st d else assigned st d'.
Proof.
  unfold assigned at 1. simpl. destruct (decide (d = d')) as [->|Hd].
  - by rewrite lookup_insert_eq.
  - by rewrite lookup_insert_ne.
Qed.

Lemma worked_assign st d s e e' :
  worked (assign st d s e) e' =
  if decide (e = e') then int_add (worked st e) 1 else worked st e'.
Proof.
  unfold worked at 1. simpl. destruct (decide (e = e')) as [->|He].
  - by rewrite lookup_insert_eq.
  - by rewrite lookup_insert_ne.
Qed.

Lemma NoDup_DAYS : NoDup DAYS.
Proof. by apply (bool_decide_unpack _). Qed.

Lemma NoDup_SHIFTS : NoDup SHIFTS.
Proof. by apply (bool_decide_unpack _). Qed.

Lemma day_list_assign st d s e d' :
  day_list (sched (assign st d s e)) d' ≡ₚ
  (if decide (d = d' ∧ s ∈ SHIFTS) then [e] else []) ++ day_list (sched st) d'.
Proof.
  unfold day_list. destruct (decide (d = d')) as [->|Hd].
  - etrans; [apply (bind_push SHIFTS (slot (sched st) d') _ s e NoDup_SHIFTS)|].
    + intros k Hk. rewrite slot_assign. rewrite decide_False; [done|].
      by intros [_ ->].
    + rewrite slot_assign, decide_True by done.
      by rewrite <- Permutation_cons_append.
    + destruct (decide (s ∈ SHIFTS)).
      * by rewrite decide_True.
      * rewrite decide_False; [done|]. by intros [_ ?].
  - rewrite decide_False by (by intros [? _]). rewrite app_nil_l.
    rewrite (bind_same SHIFTS (slot (sched st) d') (slot (sched (assign st d s e)) d')); [done|].
    intros k _. rewrite slot_assign. by rewrite decide_False by (by intros [? _]).
Qed.

Lemma week_list_assign st d s e :
  week_list (sched (assign st d s e)) ≡ₚ
  (if decide (d ∈ DAYS ∧ s ∈ SHIFTS) then [e] else []) ++ week_list (sched st).
Proof.
  unfold week_list. destruct (decide (s ∈ SHIFTS)) as [Hs|Hs].
  - etrans; [apply (bind_push DAYS (day_list (sched st)) _ d e NoDup_DAYS)|].
    + intros k Hk. unfold day_list. apply bind_same. intros s' _.
      rewrite slot_assign. rewrite decide_False; [done|]. by intros [-> _].
    + rewrite day_list_assign. by rewrite decide_True.
    + destruct (decide (d ∈ DAYS)).
      * by rewrite decide_True.
      * rewrite decide_False; [done|]. by intros [? _].
  - rewrite decide_False by (by intros [_ ?]). rewrite app_nil_l.
    rewrite (bind_same DAYS (day_list (sched st)) (day_list (sched (assign st d s e)))); [done|].
    intros k _. unfold day_list. apply bind_same. intros s' Hs'.
    rewrite slot_assign. rewrite decide_False; [done|]. by intros [_ ->].
Qed.

Lemma shift_slots_assign st d s e e' :
  (shift_slots (sched (assign st d s e)) e' ≤
   shift_slots (sched st) e' + (if decide (e = e') then 1 else 0))%nat.
Proof.
  unfold shift_slots. rewrite week_list_assign.
  rewrite filter_app, length_app.
  destruct (decide (d ∈ DAYS ∧ s ∈ SHIFTS)).
  - rewrite filter_cons, filter_nil.
    repeat case_decide; simplify_eq; simpl; lia.
  - rewrite filter_nil. simpl. lia.
Qed.

(** *** The invariant of the scheduling state *)

Lemma slot_empty_schedule d s : slot empty_schedule d s = [].
Proof.
  unfold empty_schedule.
  apply (fold_left_preserves (λ sc : Schedule, ∀ d s, slot sc d s = [])); [|done].
  clear d s. intros sc day Hsc d s. unfold slot.
  destruct (decide (day = d)) as [->|Hd]; [|by rewrite lookup_insert_ne; [apply Hsc|]].
  rewrite lookup_insert_eq. simpl.
  rewrite !lookup_insert. repeat case_decide; try done.
  specialize (Hsc d s). unfold slot in Hsc. by destruct (sc !! d).
Qed.

Lemma worked_init employees e : worked (init_state employees) e = 0%Z.
Proof.
  unfold worked, init_state. simpl.
  apply (fold_left_preserves (λ m : gmap string Z, default 0%Z (m !! e) = 0%Z));
    [|done].
  intros m e' Hm. destruct (decide (e' = e)) as [->|He].
  - by rewrite lookup_insert_eq.
  - by rewrite lookup_insert_ne.
Qed.

Lemma day_list_init employees d : day_list (sched (init_state employees)) d = [].
Proof.
  unfold day_list, init_state, SHIFTS. simpl.
  by rewrite !slot_empty_schedule.
Qed.

Lemma Inv_init cfg employees : Inv cfg (init_state employees).
Proof.
  split.
  - intros d. rewrite day_list_init. apply NoDup_nil_2.
  - intros d e. rewrite day_list_init. by intros ?%elem_of_nil.
  - intros e. rewrite worked_init. unfold shift_slots, week_list.
    rewrite (bind_same DAYS (λ _, []) (day_list (sched (init_state employees))))
      by (intros; apply day_list_init).
    done.
  - intros e. rewrite worked_init. lia.
  - intros d s Hmax. simpl. rewrite slot_empty_schedule. unfold int_size. simpl.
    rewrite to_int_id by (unfold in_int, INT_MIN, INT_MAX; lia). lia.
Qed.

(** Placing an employee who is free that day, under the weekly cap, in a
    shift with room keeps the invariant. *)
Lemma assign_Inv cfg st d s e :
  in_int (max_days_per_employee cfg) →
  Inv cfg st →
  e ∉ assigned st d →
  (worked st e < max_days_per_employee cfg)%Z →
  ((max_per_shift cfg ≤ 0)%Z ∨
   (int_size (slot (sched st) d s) < max_per_shift cfg)%Z) →
  Inv cfg (assign st d s e).
Proof.
  intros Hcap [Hnd Has Hcnt Hw Hsz] Hfree Hlt Hroom.
  assert (int_add (worked st e) 1 = worked st e + 1)%Z as Hadd.
  { unfold int_add. apply to_int_id. specialize (Hw e).
    unfold in_int, INT_MIN, INT_MAX in *. lia. }
  split.
  - intros d'. rewrite day_list_assign. case_decide as Hc; [|apply Hnd].
    destruct Hc as [-> _]. simpl. apply NoDup_cons. split; [|apply Hnd].
    intros Hin. by apply Hfree, Has.
  - intros d' e'. rewrite day_list_assign, assigned_assign.
    intros Hin. destruct (decide (d = d')) as [->|Hd].
    + case_decide; simpl in Hin.
      * apply elem_of_cons in Hin as [->|Hin]; [by apply elem_of_union_l, elem_of_singleton|].
        apply elem_of_union_r. by apply Has.
      * apply elem_of_union_r. by apply Has.
    + rewrite decide_False in Hin by (by intros [? _]). by apply Has.
  - intros e'. rewrite worked_assign.
    pose proof (shift_slots_assign st d s e e') as Hle.
    specialize (Hcnt e'). case_decide; subst; lia.
  - intros e'. rewrite worked_assign. case_decide; subst; [|apply Hw].
    specialize (Hw e'). lia.
  - intros d' s' Hmax. rewrite slot_assign. case_decide as Hc; [|by apply Hsz].
    destruct Hc as [-> ->]. pose proof (int_size_app_le (slot (sched st) d' s') e).
    destruct Hroom as [?|?]; lia.
Qed.

Lemma shift_has_capacity_room cfg st d s :
  shift_has_capacity cfg st d s = true →
  (max_per_shift cfg ≤ 0)%Z ∨
  (int_size (slot (sched st) d s) < max_per_shift cfg)%Z.
Proof.
  unfold shift_has_capacity. destruct (Z.leb_spec (max_per_shift cfg) 0); [by left|].
  intros ?%Z.ltb_lt. by right.
Qed.

Lemma push_warning_Inv cfg st w : Inv cfg st → Inv cfg (push_warning st w).
Proof. by intros []. Qed.

Lemma push_carry_Inv cfg st d e : Inv cfg st → Inv cfg (push_carry st d e).
Proof. by intros []. Qed.

(** *** The greedy passes keep the invariant *)

Section passes.
Context (cfg : Config) (Hcap : in_int (max_days_per_employee cfg)).

Lemma try_rank_Inv prefs day rank st emp :
  Inv cfg st → Inv cfg (try_rank cfg prefs day rank st emp).
Proof.
  intros HI. unfold try_rank.
  case_bool_decide as Hfree; [done|].
  destruct (Z.leb_spec (max_days_per_employee cfg) (worked st emp)); [done|].
  case_match; [done|]. case_match; [|done]. case_bool_decide; [|done].
  destruct (shift_has_capacity cfg st day _) eqn:Hroom; [|done].
  apply assign_Inv; auto using shift_has_capacity_room.
Qed.

Lemma place_first_Inv st day emp order st' :
  Inv cfg st → emp ∉ assigned st day →
  (worked st emp < max_days_per_employee cfg)%Z →
  place_first cfg st day emp order = Some st' → Inv cfg st'.
Proof.
  intros HI Hfree Hlt. induction order as [|s order IH]; simpl; [done|].
  destruct (shift_has_capacity cfg st day s) eqn:Hroom; [|done].
  intros [= <-]. apply assign_Inv; auto using shift_has_capacity_room.
Qed.

Lemma fallback_Inv prefs di day st emp :
  Inv cfg st → Inv cfg (fallback cfg prefs di day st emp).
Proof.
  intros HI. unfold fallback.
  case_bool_decide as Hfree; [done|].
  destruct (Z.leb_spec (max_days_per_employee cfg) (worked st emp)); [done|].
  destruct (pref_of prefs emp day) as [|s0 ranked]; [done|].
  destruct (place_first _ _ _ _ _) as [st'|] eqn:Hplace.
  - by eapply place_first_Inv.
  - destruct (DAYS !! _); [by apply push_carry_Inv|done].
Qed.

Lemma schedule_day_Inv prefs employees st di :
  Inv cfg st → Inv cfg (schedule_day cfg prefs employees st di).
Proof.
  intros HI. unfold schedule_day.
  apply fold_left_preserves; [intros; by apply fallback_Inv|].
  apply fold_left_preserves; [|done].
  intros st' rank HI'. apply fold_left_preserves; [|done].
  intros; by apply try_rank_Inv.
Qed.

End passes.

(** *** The cleaned employee list has no repetition *)

Lemma unique_cleaned_NoDup names : NoDup (unique_cleaned names).
Proof.
  unfold unique_cleaned.
  cut (NoDup (fold_left unique_cleaned_step names ([], ∅)).1 ∧
       ∀ x, x ∈ (fold_left unique_cleaned_step names ([], ∅)).1 →
            x ∈ (fold_left unique_cleaned_step names ([], ∅)).2); [by intros []|].
  apply (fold_left_preserves
    (λ acc : list string * gset string, NoDup acc.1 ∧ ∀ x, x ∈ acc.1 → x ∈ acc.2)).
  - intros [out seen] n [Hnd Hsub]. unfold unique_cleaned_step. simpl in *.
    case_bool_decide; [done|]. case_bool_decide as Hseen; [done|]. simpl. split.
    + apply NoDup_app. split; [done|]. split; [|apply NoDup_singleton].
      intros x Hx ->%list_elem_of_singleton. by apply Hseen, Hsub.
    + intros x [Hx| ->%list_elem_of_singleton]%elem_of_app.
      * by apply elem_of_union_r, Hsub.
      * by apply elem_of_union_l, elem_of_singleton.
  - simpl. split; [apply NoDup_nil_2|]. by intros x ?%elem_of_nil.
Qed.

(** *** Trimming and cleaning names *)

Abbreviation chars := String.list_ascii_of_string.

Lemma chars_get s j : String.get j s = chars s !! j.
Proof.
  revert j. induction s as [|c s IH]; intros j; simpl; [by destruct j|].
  destruct j; simpl; [done|apply IH].
Qed.

Lemma chars_length s : String.length s = length (chars s).
Proof. induction s; simpl; congruence. Qed.

Lemma chars_substring s j : chars (String.substring 0 j s) = take j (chars s).
Proof.
  revert j. induction s as [|c s IH]; intros j; simpl; [by destruct j|].
  destruct j; simpl; [done|]. by rewrite IH.
Qed.

Lemma chars_inj s t : chars s = chars t → s = t.
Proof.
  intros H. rewrite <- (String.string_of_list_ascii_of_string s),
    <- (String.string_of_list_ascii_of_string t). by rewrite H.
Qed.

Lemma ltrim_split s :
  ∃ pre, chars s = pre ++ chars (ltrim s) ∧
         Forall (λ c, isspace c = true) pre ∧
         ∀ c, head (chars (ltrim s)) = Some c → isspace c = false.
Proof.
  induction s as [|c s (pre & Heq & Hpre & Hhead)]; simpl.
  - exists []. split; [done|]. split; [constructor|]. by intros c [=].
  - destruct (isspace c) eqn:Hc.
    + exists (c :: pre). split; [by rewrite Heq|]. split; [by constructor|done].
    + exists []. split; [done|]. split; [constructor|]. by intros c' [= <-].
Qed.

Lemma rtrim_index_spec s i :
  (i ≤ String.length s)%nat →
  (rtrim_index s i ≤ i)%nat ∧
  Forall (λ c, isspace c = true) (drop (rtrim_index s i) (take i (chars s))) ∧
  ∀ c, last (take (rtrim_index s i) (chars s)) = Some c → isspace c = false.
Proof.
  rewrite chars_length. induction i as [|k IH]; intros Hi; simpl.
  - split; [done|]. split; [constructor|]. by intros c [=].
  - rewrite chars_get. destruct (lookup_lt_is_Some_2 (chars s) k) as [c Hc]; [lia|].
    rewrite Hc. rewrite (take_S_r _ _ _ Hc).
    destruct (isspace c) eqn:Hsp.
    + destruct IH as (Hle & Hsps & Hlast); [lia|]. split; [lia|]. split; [|done].
      rewrite drop_app_le by (rewrite length_take; lia).
      apply Forall_app. split; [done|]. by constructor.
    + split; [done|]. split.
      * rewrite drop_ge; [constructor|]. rewrite length_app, length_take. simpl. lia.
      * rewrite (take_S_r _ _ _ Hc), last_snoc. by intros c' [= <-].
Qed.

Lemma rtrim_split t :
  ∃ post, chars t = chars (rtrim t) ++ post ∧
          Forall (λ c, isspace c = true) post ∧
          (∀ c, last (chars (rtrim t)) = Some c → isspace c = false) ∧
          (∀ c, head (chars (rtrim t)) = Some c → head (chars t) = Some c).
Proof.
  destruct (rtrim_index_spec t (String.length t)) as (Hle & Hsps & Hlast); [done|].
  assert (rtrim t = String.substring 0 (rtrim_index t (String.length t)) t) as ->.
  { by destruct t. }
  rewrite chars_substring.
  exists (drop (rtrim_index t (String.length t)) (chars t)).
  split; [by rewrite take_drop|]. split.
  - by rewrite take_ge in Hsps by (rewrite chars_length; lia).
  - split; [done|]. intros c. destruct (chars t), (rtrim_index t _); by simpl.
Qed.

Lemma ltrim_id u :
  (∀ c, head (chars u) = Some c → isspace c = false) → ltrim u = u.
Proof. destruct u as [|c u]; simpl; [done|]. intros H. by rewrite (H c). Qed.

Lemma rtrim_id u :
  (∀ c, last (chars u) = Some c → isspace c = false) → rtrim u = u.
Proof.
  intros H. destruct u as [|c0 u0] eqn:Hu; [done|]. rewrite <- Hu in *.
  assert (rtrim u = String.substring 0 (rtrim_index u (String.length u)) u) as ->.
  { by rewrite Hu. }
  assert (String.length u = S (pred (String.length u))) as Hlen by (rewrite Hu; simpl; lia).
  assert (rtrim_index u (String.length u) = String.length u) as ->.
  { rewrite Hlen at 1. simpl. rewrite chars_get.
    rewrite last_lookup, <- chars_length in H.
    destruct (chars u !! pred (String.length u)) as [c|] eqn:Hc; [|lia].
    rewrite (H c eq_refl). lia. }
  apply chars_inj. rewrite chars_substring. apply take_ge. rewrite chars_length. lia.
Qed.

(** [trim] removes a run of white space at each end and nothing else: what
    is left neither starts nor ends with white space, so trimming again
    changes nothing. *)
Theorem trim_removes_outer_white_space s :
  (∃ pre post,
     chars s = pre ++ chars (trim s) ++ post ∧
     Forall (λ c, isspace c = true) pre ∧ Forall (λ c, isspace c = true) post) ∧
  (∀ c, head (chars (trim s)) = Some c → isspace c = false) ∧
  (∀ c, last (chars (trim s)) = Some c → isspace c = false) ∧
  trim (trim s) = trim s.
Proof.
  unfold trim at 1 2 3.
  destruct (ltrim_split s) as (pre & Hs & Hpre & Hhead).
  destruct (rtrim_split (ltrim s)) as (post & Ht & Hpost & Hlast & Hh).
  assert (∀ c, head (chars (rtrim (ltrim s))) = Some c → isspace c = false) as Hhead'.
  { intros c Hc. by apply Hhead, Hh. }
  split; [|split; [done|split; [done|]]].
  - exists pre, post. split; [|done]. by rewrite Hs, Ht.
  - unfold trim. rewrite (ltrim_id _ Hhead'). by apply rtrim_id.
Qed.

Lemma unique_cleaned_seen names :
  ∀ x, x ∈ (fold_left unique_cleaned_step names ([], ∅)).2 ↔
       x ∈ (fold_left unique_cleaned_step names ([], ∅)).1.
Proof.
  apply (fold_left_preserves
    (λ acc : list string * gset string, ∀ x, x ∈ acc.2 ↔ x ∈ acc.1)).
  - intros [out seen] n Hacc x. unfold unique_cleaned_step. simpl in *.
    case_bool_decide; [done|]. case_bool_decide; [done|]. simpl.
    rewrite elem_of_union, elem_of_app, elem_of_singleton, list_elem_of_singleton.
    rewrite Hacc. tauto.
  - intros x. simpl. split; [by intros ?%elem_of_empty|by intros ?%elem_of_nil].
Qed.

(** The first-seen order of [unique_cleaned]: a further name is appended,
    trimmed, unless it is empty or already there.  The result holds every
    non-empty trimmed name once. *)
Theorem unique_cleaned_snoc names n :
  unique_cleaned [] = [] ∧
  unique_cleaned (names ++ [n]) =
    unique_cleaned names ++
    (if decide (trim n = "" ∨ trim n ∈ unique_cleaned names) then [] else [trim n]) ∧
  NoDup (unique_cleaned names) ∧
  (∀ x, x ∈ unique_cleaned names ↔ x ≠ "" ∧ ∃ m, m ∈ names ∧ x = trim m).
Proof.
  split; [done|]. split; [|split; [apply unique_cleaned_NoDup|]].
  - unfold unique_cleaned. rewrite fold_left_app. simpl.
    pose proof (unique_cleaned_seen names (trim n)) as Hseen.
    destruct (fold_left unique_cleaned_step names ([], ∅)) as [out seen].
    unfold unique_cleaned_step. simpl in *.
    case_bool_decide as He.
    { rewrite decide_True by (by left). by rewrite app_nil_r. }
    case_bool_decide as Hs.
    { rewrite decide_True by (right; by apply Hseen). by rewrite app_nil_r. }
    rewrite decide_False; [done|]. intros [?|?]; [done|]. by apply Hs, Hseen.
  - induction names as [|m names IH] using rev_ind.
    + intros x. split; [by intros ?%elem_of_nil|]. by intros [_ (m & ?%elem_of_nil & _)].
    + intros x. unfold unique_cleaned in *. rewrite fold_left_app. simpl.
      pose proof (unique_cleaned_seen names (trim m)) as Hseen.
      destruct (fold_left unique_cleaned_step names ([], ∅)) as [out seen].
      unfold unique_cleaned_step. simpl in *.
      assert (∀ P : Prop, (∃ m0, m0 ∈ names ++ [m] ∧ P ∧ x = trim m0) ↔
                (∃ m0, m0 ∈ names ∧ P ∧ x = trim m0) ∨ (P ∧ x = trim m)) as Hex.
      { intros P. split.
        - intros (m0 & [Hin| ->%list_elem_of_singleton]%elem_of_app & HP & Hx);
            [left; by exists m0|by right].
        - intros [(m0 & Hin & HP & Hx)|[HP Hx]].
          + exists m0. split; [|done]. apply elem_of_app. by left.
          + exists m. split; [|done]. apply elem_of_app. right. by left. }
      case_bool_decide as He; [|case_bool_decide as Hs]; simpl.
      * rewrite IH. split.
        -- intros (Hx & m0 & Hin & ->). split; [done|]. exists m0. split; [|done].
           apply elem_of_app. by left.
        -- intros (Hx & m0 & [Hin| ->%list_elem_of_singleton]%elem_of_app & ->).
           ++ split; [done|]. by exists m0.
           ++ done.
      * rewrite IH. split.
        -- intros (Hx & m0 & Hin & ->). split; [done|]. exists m0. split; [|done].
           apply elem_of_app. by left.
        -- intros (Hx & m0 & [Hin| ->%list_elem_of_singleton]%elem_of_app & ->).
           ++ split; [done|]. by exists m0.
           ++ by apply IH, Hseen.
      * rewrite elem_of_app, list_elem_of_singleton, IH. split.
        -- intros [(Hx & m0 & Hin & ->)| ->].
           ++ split; [done|]. exists m0. split; [|done]. apply elem_of_app. by left.
           ++ split; [done|]. exists m. split; [|done]. apply elem_of_app. right. by left.
        -- intros (Hx & m0 & [Hin| ->%list_elem_of_singleton]%elem_of_app & ->).
           ++ left. split; [done|]. by exists m0.
           ++ by right.
Qed.

(** *** The backfill pass keeps the invariant *)

Section backfill.
Context (S : Shuffler) (cfg : Config) (employees : list string).
Context (Hcap : in_int (max_days_per_employee cfg)).
Context (Hemps : NoDup employees).

Lemma backfill_take_Inv day shift need cands added st :
  Inv cfg st → NoDup cands →
  (∀ c, c ∈ cands →
     (c ∉ assigned st day) ∧ (worked st c < max_days_per_employee cfg)%Z) →
  Inv cfg (backfill_take cfg day shift need cands added st).
Proof.
  revert added st. induction cands as [|emp rest IH]; intros added st HI Hnd Hc;
    simpl; [done|].
  destruct (_ && _) eqn:Hfull; [done|].
  apply NoDup_cons in Hnd as [Hemp Hnd].
  destruct (Hc emp) as [Hfree Hlt]; [by left|].
  assert (Inv cfg (assign st day shift emp)) as HI'.
  { apply assign_Inv; try done.
    apply andb_false_iff in Hfull as [?%Z.ltb_ge|?%Z.leb_gt]; [by left|by right]. }
  destruct (need <=? _)%Z; [done|]. apply IH; [done..|].
  intros c Hin. destruct (Hc c) as [Hcf Hcl]; [by right|].
  assert (emp ≠ c) by (by intros ->).
  rewrite assigned_assign, worked_assign, decide_True, decide_False by done.
  split; [|done]. by intros [->%elem_of_singleton|?]%elem_of_union.
Qed.

Lemma backfill_slot_Inv day shift p :
  Inv cfg p.1 → Inv cfg (backfill_slot S cfg employees day p shift).1.
Proof.
  destruct p as [st g]. simpl. intros HI. unfold backfill_slot.
  destruct (int_sub _ _ <=? 0)%Z; [done|].
  pose proof (shuffle_perm S
    (filter (λ e, (e ∉ assigned st day) ∧
                  (worked st e < max_days_per_employee cfg)%Z) employees) g) as Hperm.
  destruct (shuffle S _ g) as [cands g']. simpl in Hperm.
  assert (Inv cfg (backfill_take cfg day shift
            (int_sub (min_per_shift cfg) (int_size (slot (sched st) day shift)))
            cands 0 st)) as HI'.
  { apply backfill_take_Inv; [done| |].
    - rewrite Hperm. by apply NoDup_filter.
    - intros c Hin. rewrite Hperm in Hin.
      by apply list_elem_of_filter in Hin as [? _]. }
  simpl. case_match; [by apply push_warning_Inv|done].
Qed.

Lemma backfill_Inv p : Inv cfg p.1 → Inv cfg (backfill S cfg employees p).1.
Proof.
  intros HI. unfold backfill.
  apply (fold_left_preserves (λ p, Inv cfg p.1)); [|done].
  intros p' day HI'.
  apply (fold_left_preserves (λ p, Inv cfg p.1)); [|done].
  intros; by apply backfill_slot_Inv.
Qed.

End backfill.

(** *** The enforcement pass finds nothing to do *)

Lemma fold_left_id {A K} (P : A → Prop) (f : A → K → A) ks a :
  (∀ a k, P a → f a k = a) → P a → fold_left f ks a = a.
Proof.
  intros Hf Ha. induction ks as [|k ks IH]; simpl; [done|].
  by rewrite Hf.
Qed.

Lemma enforce_slot_id cfg day st shift :
  (0 < max_per_shift cfg)%Z → Inv cfg st → enforce_slot cfg day st shift = st.
Proof.
  intros Hmax HI. unfold enforce_slot.
  destruct (length _); simpl; [done|].
  pose proof (inv_size _ _ HI day shift Hmax).
  destruct (Z.ltb_spec (max_per_shift cfg) (int_size (slot (sched st) day shift)));
    [lia|done].
Qed.

Lemma enforce_id cfg st : Inv cfg st → enforce cfg st = st.
Proof.
  intros HI. unfold enforce.
  destruct (Z.ltb_spec 0 (max_per_shift cfg)) as [Hmax|]; [|done].
  apply (fold_left_id (Inv cfg)); [|done].
  intros st' day HI'. apply (fold_left_id (Inv cfg)); [|done].
  intros. by apply enforce_slot_id.
Qed.

(** *** Short-staffed slots are reported *)

Section reporting.
Context (S : Shuffler) (cfg : Config) (employees : list string).
Context (Hmin : in_int (min_per_shift cfg)).

Lemma backfill_take_frame day shift need cands added st :
  warnings (backfill_take cfg day shift need cands added st) = warnings st ∧
  ∀ d s, ¬ (day = d ∧ shift = s) →
    slot (sched (backfill_take cfg day shift need cands added st)) d s =
    slot (sched st) d s.
Proof.
  revert added st. induction cands as [|emp rest IH]; intros added st; simpl;
    [done|].
  destruct (_ && _); [done|].
  assert (∀ d s, ¬ (day = d ∧ shift = s) →
            slot (sched (assign st day shift emp)) d s = slot (sched st) d s) as Hone.
  { intros d s Hds. rewrite slot_assign. by rewrite decide_False. }
  destruct (need <=? _)%Z; [done|].
  destruct (IH (int_add added 1) (assign st day shift emp)) as [-> Hs].
  split; [done|]. intros d s Hds. by rewrite Hs, Hone.
Qed.

(** The turn of another slot leaves this slot alone and keeps the warnings. *)
Lemma backfill_slot_frame day shift p d s :
  ¬ (day = d ∧ shift = s) →
  slot (sched (backfill_slot S cfg employees day p shift).1) d s =
    slot (sched p.1) d s ∧
  ∀ w, w ∈ warnings p.1 →
       w ∈ warnings (backfill_slot S cfg employees day p shift).1.
Proof.
  destruct p as [st g]. intros Hds. unfold backfill_slot.
  destruct (int_sub _ _ <=? 0)%Z; [done|].
  destruct (shuffle S _ g) as [cands g'].
  destruct (backfill_take_frame day shift
    (int_sub (min_per_shift cfg) (int_size (slot (sched st) day shift)))
    cands 0 st) as [Hw Hs].
  cbn [fst]. case_match; cbn [sched warnings push_warning]; rewrite ?Hw, Hs by done.
  - split; [done|]. intros w Hin. apply elem_of_app. by left.
  - done.
Qed.

Lemma backfill_slot_keeps day shift p d s :
  ¬ (day = d ∧ shift = s) →
  reported cfg p.1 d s →
  reported cfg (backfill_slot S cfg employees day p shift).1 d s.
Proof.
  intros Hds Hrep. destruct (backfill_slot_frame day shift p d s Hds) as [Hs Hw].
  unfold reported. rewrite Hs. intros Hlt. by apply Hw, Hrep.
Qed.

(** The turn of a slot reports it when it stays short. *)
Lemma backfill_slot_reports day shift p :
  reported cfg (backfill_slot S cfg employees day p shift).1 day shift.
Proof.
  destruct p as [st g]. unfold backfill_slot.
  assert (∀ l : list string,
    (Z.of_nat (length l) < min_per_shift cfg)%Z → int_size l = Z.of_nat (length l))
    as Hsmall.
  { intros l Hl. apply int_size_small. unfold in_int in Hmin. lia. }
  destruct (Z.leb_spec (int_sub (min_per_shift cfg)
              (int_size (slot (sched st) day shift))) 0) as [Hneed|Hneed].
  - intros Hlt. cbn [fst] in *. exfalso.
    rewrite (Hsmall _ Hlt) in Hneed. unfold int_sub in Hneed.
    rewrite to_int_id in Hneed; [lia|].
    unfold in_int, INT_MIN, INT_MAX in *. lia.
  - destruct (shuffle S _ g) as [cands g'].
    set (st' := backfill_take cfg day shift _ cands 0 st).
    cbn [fst].
    destruct (Z.ltb_spec (int_size (slot (sched st') day shift))
                (min_per_shift cfg)) as [Hshort|Hok].
    + intros _. cbn [warnings push_warning sched].
      apply elem_of_app. right. by apply list_elem_of_singleton.
    + intros Hlt. rewrite (Hsmall _ Hlt) in Hok. lia.
Qed.

Lemma backfill_reports p day shift :
  day ∈ DAYS → shift ∈ SHIFTS →
  reported cfg (backfill S cfg employees p).1 day shift.
Proof.
  intros Hday Hshift. unfold backfill.
  revert shift Hshift.
  apply (fold_left_establishes
    (λ d (p : State * rng_state S), ∀ s, s ∈ SHIFTS → reported cfg p.1 d s)
    (λ p d, fold_left (backfill_slot S cfg employees d) SHIFTS p)
    DAYS p NoDup_DAYS); [| |done].
  - intros p' d s Hs.
    apply (fold_left_establishes
      (λ s (p : State * rng_state S), reported cfg p.1 d s)
      (backfill_slot S cfg employees d) SHIFTS p' NoDup_SHIFTS); [| |done].
    + intros. apply backfill_slot_reports.
    + intros p'' s1 s2 Hne. apply backfill_slot_keeps. by intros [_ ->].
  - intros p' d d' Hne Hrep s Hs.
    apply (fold_left_preserves (λ p : State * rng_state S, reported cfg p.1 d s));
      [|by apply Hrep].
    intros p'' s' Hrep'. apply backfill_slot_keeps; [|done]. by intros [-> _].
Qed.

End reporting.

(** *** What a normal return is made of *)

Lemma after_backfill_Inv S cfg raw names :
  in_int (max_days_per_employee cfg) →
  Inv cfg (after_backfill S cfg raw (unique_cleaned names)).
Proof.
  intros Hcap. apply backfill_Inv; [done|apply unique_cleaned_NoDup|].
  apply (fold_left_preserves (Inv cfg)); [|apply Inv_init].
  intros. by apply schedule_day_Inv.
Qed.

Lemma schedule_employees_eq S names raw cfg :
  schedule_employees S names raw cfg =
  match unique_cleaned names with
  | [] => InvalidArgument "No employees provided."
  | _ :: _ =>
      match feasible_or_raise (unique_cleaned names) cfg with
      | Ok _ =>
          let st := enforce cfg (after_backfill S cfg raw (unique_cleaned names)) in
          Ok (sched st, warnings st)
      | InvalidArgument msg => InvalidArgument msg
      | RuntimeError msg => RuntimeError msg
      | Undefined => Undefined
      end
  end.
Proof.
  unfold schedule_employees, after_backfill, after_days.
  destruct (unique_cleaned names) as [|e0 emps]; [reflexivity|].
  destruct (feasible_or_raise _ _); try reflexivity.
  destruct (backfill _ _ _ _) as [st g]. reflexivity.
Qed.

Lemma schedule_employees_Ok S names raw cfg sc ws :
  in_int (max_days_per_employee cfg) →
  schedule_employees S names raw cfg = Ok (sc, ws) →
  sc = sched (after_backfill S cfg raw (unique_cleaned names)) ∧
  ws = warnings (after_backfill S cfg raw (unique_cleaned names)).
Proof.
  intros Hcap. rewrite schedule_employees_eq.
  rewrite (enforce_id cfg _ (after_backfill_Inv S cfg raw names Hcap)).
  generalize (after_backfill S cfg raw (unique_cleaned names)). intros st.
  destruct (unique_cleaned names); [by intros [=]|].
  destruct (feasible_or_raise _ _); [|by intros [=]..].
  by intros [= <- <-].
Qed.

(** *** The sample generator is a shuffler *)

Lemma extract_perm i l x r : extract i l = Some (x, r) → l ≡ₚ x :: r.
Proof.
  revert i x r. induction l as [|y l IH]; intros i x r; [by destruct i|].
  destruct i as [|i]; simpl; [by intros [= <- <-]|].
  destruct (extract i l) as [[z t]|] eqn:He.
  - intros [= <- <-]. rewrite (IH _ _ _ He). apply perm_swap.
  - by intros [= <- <-].
Qed.

Lemma lcg_shuffle_go_perm fuel l g : (lcg_shuffle_go fuel l g).1 ≡ₚ l.
Proof.
  revert l g. induction fuel as [|fuel IH]; intros l g; simpl; [done|].
  destruct (extract _ l) as [[x r]|] eqn:He; [|done].
  specialize (IH r (lcg_next g)).
  destruct (lcg_shuffle_go fuel r (lcg_next g)) as [r' g'']. simpl in *.
  by rewrite IH, (extract_perm _ _ _ _ He).
Qed.

Lemma lcg_shuffle_perm l g : (lcg_shuffle l g).1 ≡ₚ l.
Proof. apply lcg_shuffle_go_perm. Qed.

Definition lcg_shuffler : Shuffler :=
  {| rng_state := Z; mt19937 := λ seed, seed;
     shuffle := lcg_shuffle; shuffle_perm := lcg_shuffle_perm |}.

Lemma in_int_5 : in_int (max_days_per_employee default_config).
Proof. unfold in_int, INT_MIN, INT_MAX. simpl. lia. Qed.

Lemma nine_employees_run_ok :
  is_ok (schedule_employees lcg_shuffler nine_employees sample_preferences
           default_config) = true.
Proof. vm_compute. reflexivity. Qed.

(** *** Preference normalization *)

Lemma fold_push_label vec acc :
  fold_left push_label vec acc =
  acc ++ filter (λ s, recognized s = true) (clean_label <$> vec).
Proof.
  revert acc. induction vec as [|s vec IH]; intros acc; simpl.
  - by rewrite app_nil_r.
  - rewrite IH. unfold push_label. rewrite filter_cons.
    destruct (recognized (clean_label s)).
    + rewrite decide_True by done. by rewrite <- app_assoc.
    + by rewrite decide_False by done.
Qed.

Lemma rank_day_labels per_day day :
  rank_day per_day day =
  filter (λ s, recognized s = true) (clean_label <$> labels (per_day !! day)).
Proof.
  unfold rank_day. destruct (per_day !! day) as [[s|vec]|]; simpl; [|apply fold_push_label|done].
  unfold push_label. rewrite filter_cons, filter_nil.
  destruct (recognized (clean_label s)).
  - by rewrite decide_True.
  - by rewrite decide_False.
Qed.

Lemma recognized_shift s : recognized s = true → s ∈ SHIFTS.
Proof.
  unfold recognized. intros [_ Hs%bool_decide_eq_true]%andb_true_iff.
  unfold SHIFT_SET in Hs. by apply elem_of_list_to_set in Hs.
Qed.

Lemma lookup_fold_insert {V} (f : string → V) ds (m0 : gmap string V) day :
  fold_left (λ m d, <[d := f d]> m) ds m0 !! day =
  if decide (day ∈ ds) then Some (f day) else m0 !! day.
Proof.
  revert m0. induction ds as [|d ds IH]; intros m0; simpl; [done|].
  rewrite IH. destruct (decide (day ∈ ds)) as [Hin|Hin].
  - by rewrite decide_True by (by right).
  - destruct (decide (d = day)) as [->|Hd].
    + rewrite lookup_insert_eq. by rewrite decide_True by (by left).
    + rewrite lookup_insert_ne by done. rewrite decide_False; [done|].
      by intros [?|?]%elem_of_cons.
Qed.

(** The loop over the hash map treats every employee on their own. *)
Lemma normalize_preferences_fmap raw :
  normalize_preferences raw = normalize_employee <$> raw.
Proof.
  unfold normalize_preferences.
  apply (map_fold_weak_ind (λ r (m : gmap string (gmap string PrefValue)),
           r = normalize_employee <$> m)).
  - by rewrite fmap_empty.
  - intros emp per_day m r _ ->. by rewrite fmap_insert.
Qed.

(** C3 (amended).  For every employee of the raw input and each of the seven
    days, the normalized list holds, in input order, the cleaned labels of
    the entry that are recognized shifts; nothing else is kept, and nothing
    is dropped for being a repetition or for coming after a third label. *)
Theorem normalized_preference_is_filtered_labels raw emp per_day day :
  raw !! emp = Some per_day → day ∈ DAYS →
  normalize_preferences raw !! emp ≫= (.!! day) =
    Some (filter (λ s, recognized s = true)
            (clean_label <$> labels (per_day !! day))) ∧
  Forall (λ s, s ∈ SHIFTS)
    (filter (λ s, recognized s = true) (clean_label <$> labels (per_day !! day))).
Proof.
  intros Hemp Hday. split.
  - rewrite normalize_preferences_fmap, lookup_fmap, Hemp. simpl.
    unfold normalize_employee. rewrite lookup_fold_insert, decide_True by done.
    by rewrite rank_day_labels.
  - apply Forall_forall. intros s [Hs _]%list_elem_of_filter.
    by apply recognized_shift.
Qed.

Lemma normalized_preference_is_filtered_labels_witness :
  normalize_preferences sample_preferences !! "Bob" ≫= (.!! "Mon") =
    Some ["evening"] ∧
  Forall (λ s, s ∈ SHIFTS) ["evening"].
Proof.
  refine (normalized_preference_is_filtered_labels sample_preferences "Bob"
            {[ "Mon" := PrefOne " Evening ";
               "Tue" := PrefMany ["evening"; "afternoon"] ]} "Mon" _ _).
  - vm_compute. reflexivity.
  - by apply (bool_decide_unpack _).
Defined.

(** C3 as stated fails: repeated labels are all kept, so a list can be
    longer than three and hold a shift more than once. *)
Lemma repeated_labels_are_kept :
  pref_of (normalize_preferences
             {[ "Ann" := {[ "Mon" := PrefMany ["morning"; "Morning"; " MORNING ";
                                                "evening"; "night"] ]} ]})
    "Ann" "Mon" = ["morning"; "morning"; "morning"; "evening"] ∧
  ¬ NoDup ["morning"; "morning"; "morning"; "evening"] ∧
  ¬ (length ["morning"; "morning"; "morning"; "evening"] ≤ 3)%nat.
Proof.
  split; [by vm_compute|]. split.
  - intros Hnd. apply NoDup_cons in Hnd as [Hnot _]. apply Hnot. by left.
  - simpl. lia.
Qed.

(** *** Feasibility *)

Lemma need_more_ceil d m :
  (0 < d)%Z → (0 < m)%Z →
  (Z.quot d m + (if (Z.rem d m =? 0)%Z then 0 else 1))%Z = ceil_div d m.
Proof.
  intros Hd Hm. unfold ceil_div.
  rewrite Z.quot_div_nonneg, Z.rem_mod_nonneg by lia.
  destruct (Z.eqb_spec (d `mod` m) 0) as [Hr|Hr].
  - apply (Z.div_unique _ _ _ (m - 1)); [left; lia|].
    pose proof (Z.div_mod d m). lia.
  - apply (Z.div_unique _ _ _ (d `mod` m - 1)).
    + pose proof (Z.mod_pos_bound d m). lia.
    + pose proof (Z.div_mod d m). lia.
Qed.

Lemma feasible_or_raise_spec names cfg :
  (0 < max_days_per_employee cfg)%Z →
  in_int (required_total cfg) → in_int (supply_cap names cfg) →
  feasible_or_raise (unique_cleaned names) cfg =
  if (supply_cap names cfg <? required_total cfg)%Z then
    RuntimeError (infeasible_message (required_total cfg) (supply_cap names cfg)
      (ceil_div (required_total cfg - supply_cap names cfg)
         (max_days_per_employee cfg)))
  else Ok tt.
Proof.
  intros Hpos Hreq Hsup. unfold feasible_or_raise.
  assert (required_slots cfg = required_total cfg) as ->.
  { unfold required_slots, required_total.
    change (size_mul (Z.of_nat (length DAYS)) (Z.of_nat (length SHIFTS)))
      with 21%Z.
    rewrite to_int_size_mul. apply to_int_id.
    by replace (21 * min_per_shift cfg)%Z with (7 * 3 * min_per_shift cfg)%Z by lia. }
  assert (supply_slots (unique_cleaned names) cfg = supply_cap names cfg) as ->.
  { unfold supply_slots, supply_cap. rewrite to_int_size_mul. by apply to_int_id. }
  destruct (Z.ltb_spec (supply_cap names cfg) (required_total cfg)) as [Hlt|]; [|done].
  assert (0 ≤ supply_cap names cfg)%Z as Hnn by (unfold supply_cap; lia).
  assert (int_sub (required_total cfg) (supply_cap names cfg) =
          required_total cfg - supply_cap names cfg)%Z as ->.
  { apply to_int_id. unfold in_int, INT_MIN, INT_MAX in *. lia. }
  unfold int_div, int_rem.
  rewrite bool_decide_eq_false_2 by lia.
  unfold int_add. rewrite need_more_ceil by lia.
  rewrite to_int_id; [done|].
  unfold ceil_div, in_int, INT_MIN, INT_MAX in *.
  split.
  - transitivity 0%Z; [lia|]. apply Z.div_pos; lia.
  - apply Z.div_le_upper_bound; nia.
Qed.

(** C2 (amended).  For a cleaned list that is not empty, a positive weekly
    cap, and totals that fit an [int]: the call raises Infeasible exactly
    when the supply is short of 7 * 3 * min_per_shift, and the message then
    gives the required total, the supply and ceil(deficit / cap). *)
Theorem infeasible_iff_supply_short S names raw cfg :
  unique_cleaned names ≠ [] →
  (0 < max_days_per_employee cfg)%Z →
  in_int (required_total cfg) → in_int (supply_cap names cfg) →
  ((∃ msg, schedule_employees S names raw cfg = RuntimeError msg) ↔
   (supply_cap names cfg < required_total cfg)%Z) ∧
  ((supply_cap names cfg < required_total cfg)%Z →
   schedule_employees S names raw cfg =
   RuntimeError
     (infeasible_message (required_total cfg) (supply_cap names cfg)
        (ceil_div (required_total cfg - supply_cap names cfg)
           (max_days_per_employee cfg)))).
Proof.
  intros Hne Hpos Hreq Hsup. rewrite schedule_employees_eq.
  rewrite (feasible_or_raise_spec names cfg Hpos Hreq Hsup).
  destruct (unique_cleaned names) as [|e0 emps] eqn:Hemps; [done|].
  destruct (Z.ltb_spec (supply_cap names cfg) (required_total cfg)) as [Hlt|Hge].
  - split; [|done]. split; [done|]. intros _. by eexists.
  - split; [|lia]. split; [|lia]. by intros [msg [=]].
Qed.

Lemma infeasible_iff_supply_short_witness :
  schedule_employees lcg_shuffler ["A"] ∅ default_config =
  RuntimeError
    "Infeasible: need at least 42 total shift assignments, but employee supply caps at 5. Consider adding ~8 more employees or increasing max_days_per_employee.".
Proof.
  change (schedule_employees lcg_shuffler ["A"] ∅ default_config =
          RuntimeError (infeasible_message 42 5 8)).
  apply (infeasible_iff_supply_short lcg_shuffler ["A"] ∅ default_config).
  - by vm_compute.
  - by vm_compute.
  - by vm_compute.
  - by vm_compute.
  - by vm_compute.
Defined.

(** C2 as stated fails in three ways: an empty cleaned list is rejected as
    an invalid argument although its supply 0 is short of 42; a product that
    overflows [int] hides a shortage; a zero cap makes the suggestion
    divide by zero. *)
Lemma infeasible_iff_fails :
  (schedule_employees lcg_shuffler ["  "] ∅ default_config =
     InvalidArgument "No employees provided." ∧
   (supply_cap ["  "] default_config < required_total default_config)%Z) ∧
  (is_ok (schedule_employees lcg_shuffler ["A"] ∅
            {| min_per_shift := 102261127; max_per_shift := 4;
               max_days_per_employee := 5; random_seed := 42 |}) = true ∧
   (1 * 5 < 7 * 3 * 102261127)%Z) ∧
  schedule_employees lcg_shuffler ["A"] ∅
    {| min_per_shift := 2; max_per_shift := 4;
       max_days_per_employee := 0; random_seed := 42 |} = Undefined.
Proof. vm_compute. repeat split; done. Qed.

(** *** Who is placed, where, and how many *)

Lemma carry_init employees d : carry (init_state employees) d = [].
Proof.
  unfold carry, init_state. simpl.
  rewrite !lookup_insert. by repeat case_decide.
Qed.

Lemma keys_empty_schedule d s :
  d ∈ DAYS → s ∈ SHIFTS → is_Some (empty_schedule !! d ≫= (.!! s)).
Proof.
  intros Hd Hs. unfold DAYS, SHIFTS in *.
  repeat (apply elem_of_cons in Hd as [->|Hd]);
    try (by apply elem_of_nil in Hd);
    repeat (apply elem_of_cons in Hs as [->|Hs]);
    try (by apply elem_of_nil in Hs);
    by vm_compute; eexists.
Qed.

Lemma Roster_init cfg employees : Roster cfg employees (init_state employees).
Proof.
  split.
  - intros d s e. simpl. rewrite slot_empty_schedule. by intros ?%elem_of_nil.
  - intros d e. rewrite carry_init. by intros ?%elem_of_nil.
  - intros Hmax d s. simpl. rewrite slot_empty_schedule. simpl. lia.
  - intros d s. apply keys_empty_schedule.
Qed.

Lemma keys_set_slot (sc : gmap string (gmap string (list string))) d s v d' s' :
  is_Some (sc !! d' ≫= (.!! s')) →
  is_Some (set_slot sc d s v !! d' ≫= (.!! s')).
Proof.
  unfold set_slot. intros Hold. destruct (decide (d = d')) as [->|Hd].
  - rewrite lookup_insert_eq. simpl. destruct (decide (s = s')) as [->|Hs].
    + by rewrite lookup_insert_eq.
    + rewrite lookup_insert_ne by done. by destruct (sc !! d').
  - by rewrite lookup_insert_ne.
Qed.

Section roster.
Context (cfg : Config) (employees : list string).
Context (Hmax : in_int (max_per_shift cfg)).

Lemma assign_Roster st d s e :
  Roster cfg employees st → e ∈ employees →
  ((max_per_shift cfg ≤ 0)%Z ∨
   (int_size (slot (sched st) d s) < max_per_shift cfg)%Z) →
  Roster cfg employees (assign st d s e).
Proof.
  intros [Hmem Hcarry Hroom Hkeys] He Hcap. split.
  - intros d' s' e'. rewrite slot_assign. case_decide; [|apply Hmem].
    intros [?| ->%list_elem_of_singleton]%elem_of_app; [by eapply Hmem|done].
  - done.
  - intros Hpos d' s'. rewrite slot_assign. case_decide as Hc; [|by apply Hroom].
    destruct Hc as [-> ->]. specialize (Hroom Hpos d' s').
    rewrite length_app. simpl.
    rewrite int_size_small in Hcap by (unfold in_int in Hmax; lia). lia.
  - intros d' s' Hd Hs. simpl. by apply keys_set_slot, Hkeys.
Qed.

Lemma push_carry_Roster st d e :
  Roster cfg employees st → e ∈ employees →
  Roster cfg employees (push_carry st d e).
Proof.
  intros [Hmem Hcarry Hroom Hkeys] He. split; try done.
  intros d' e'. unfold carry. simpl. destruct (decide (d = d')) as [->|Hd].
  - rewrite lookup_insert_eq. simpl.
    intros [?| ->%list_elem_of_singleton]%elem_of_app; [by eapply Hcarry|done].
  - rewrite lookup_insert_ne by done. apply Hcarry.
Qed.

Lemma push_warning_Roster st w :
  Roster cfg employees st → Roster cfg employees (push_warning st w).
Proof. by intros []. Qed.

Lemma try_rank_Roster prefs day rank st emp :
  emp ∈ employees → Roster cfg employees st →
  Roster cfg employees (try_rank cfg prefs day rank st emp).
Proof.
  intros He HR. unfold try_rank.
  case_bool_decide; [done|]. case_match; [done|]. case_match; [done|].
  case_match; [|done]. case_bool_decide; [|done].
  destruct (shift_has_capacity cfg st day _) eqn:Hroom; [|done].
  apply assign_Roster; auto using shift_has_capacity_room.
Qed.

Lemma place_first_Roster st day emp order st' :
  emp ∈ employees → Roster cfg employees st →
  place_first cfg st day emp order = Some st' → Roster cfg employees st'.
Proof.
  intros He HR. induction order as [|s order IH]; simpl; [done|].
  destruct (shift_has_capacity cfg st day s) eqn:Hroom; [|done].
  intros [= <-]. apply assign_Roster; auto using shift_has_capacity_room.
Qed.

Lemma fallback_Roster prefs di day st emp :
  emp ∈ employees → Roster cfg employees st →
  Roster cfg employees (fallback cfg prefs di day st emp).
Proof.
  intros He HR. unfold fallback.
  case_bool_decide; [done|]. case_match; [done|].
  destruct (pref_of prefs emp day) as [|s0 ranked]; [done|].
  destruct (place_first _ _ _ _ _) as [st'|] eqn:Hplace.
  - by eapply place_first_Roster.
  - destruct (DAYS !! _); [by apply push_carry_Roster|done].
Qed.

Lemma day_order_members st day e :
  Roster cfg employees st → e ∈ day_order st employees day → e ∈ employees.
Proof.
  intros HR. unfold day_order.
  intros [Hc|[_ He]%list_elem_of_filter]%elem_of_app; [|done].
  by eapply roster_carry.
Qed.

Lemma schedule_day_Roster prefs st di :
  Roster cfg employees st →
  Roster cfg employees (schedule_day cfg prefs employees st di).
Proof.
  intros HR. unfold schedule_day.
  assert (∀ e, e ∈ day_order st employees (default "" (DAYS !! di)) →
               e ∈ employees) as Hord.
  { intros e. by apply day_order_members. }
  apply fold_left_preserves_in.
  { intros st' e He. by apply fallback_Roster, Hord. }
  apply fold_left_preserves; [|done].
  intros st' rank HR'. apply fold_left_preserves_in; [|done].
  intros st'' e He. by apply try_rank_Roster, Hord.
Qed.

Lemma backfill_take_Roster day shift need cands added st :
  (∀ c, c ∈ cands → c ∈ employees) → Roster cfg employees st →
  Roster cfg employees (backfill_take cfg day shift need cands added st).
Proof.
  revert added st. induction cands as [|emp rest IH]; intros added st Hc HR;
    simpl; [done|].
  destruct (_ && _) eqn:Hfull; [done|].
  assert (Roster cfg employees (assign st day shift emp)) as HR'.
  { apply assign_Roster; [done|apply Hc; by left|].
    apply andb_false_iff in Hfull as [?%Z.ltb_ge|?%Z.leb_gt]; [by left|by right]. }
  destruct (need <=? _)%Z; [done|]. apply IH; [|done].
  intros c Hin. apply Hc. by right.
Qed.

Lemma backfill_slot_Roster S day shift p :
  Roster cfg employees p.1 →
  Roster cfg employees (backfill_slot S cfg employees day p shift).1.
Proof.
  destruct p as [st g]. simpl. intros HR. unfold backfill_slot.
  destruct (int_sub _ _ <=? 0)%Z; [done|].
  pose proof (shuffle_perm S
    (filter (λ e, (e ∉ assigned st day) ∧
                  (worked st e < max_days_per_employee cfg)%Z) employees) g) as Hperm.
  destruct (shuffle S _ g) as [cands g']. simpl in Hperm.
  assert (Roster cfg employees (backfill_take cfg day shift
            (int_sub (min_per_shift cfg) (int_size (slot (sched st) day shift)))
            cands 0 st)) as HR'.
  { apply backfill_take_Roster; [|done].
    intros c Hin. rewrite Hperm in Hin.
    by apply list_elem_of_filter in Hin as [_ ?]. }
  cbn [fst]. case_match; [by apply push_warning_Roster|done].
Qed.

Lemma after_backfill_Roster S raw :
  Roster cfg employees (after_backfill S cfg raw employees).
Proof.
  unfold after_backfill, backfill.
  apply (fold_left_preserves (λ p : State * rng_state S, Roster cfg employees p.1)).
  - intros p day HR.
    apply (fold_left_preserves (λ p : State * rng_state S, Roster cfg employees p.1));
      [|done].
    intros p' shift HR'. by apply backfill_slot_Roster.
  - cbn [fst]. unfold after_days.
    apply (fold_left_preserves (Roster cfg employees)); [|apply Roster_init].
    intros. by apply schedule_day_Roster.
Qed.

End roster.

Lemma in_int_4 : in_int (max_per_shift default_config).
Proof. unfold in_int, INT_MIN, INT_MAX. simpl. lia. Qed.

(** On a normal return the schedule lists cleaned employee names only, and
    holds a list for each of the 7 days and 3 shifts, which is what
    [print_schedule] reads with [at]. *)
Theorem schedule_lists_employees_in_all_slots S names raw cfg sc ws :
  in_int (max_per_shift cfg) → in_int (max_days_per_employee cfg) →
  schedule_employees S names raw cfg = Ok (sc, ws) →
  (∀ day shift emp, emp ∈ slot sc day shift → emp ∈ unique_cleaned names) ∧
  (∀ day shift, day ∈ DAYS → shift ∈ SHIFTS → is_Some (sc !! day ≫= (.!! shift))).
Proof.
  intros Hmax Hcap Hrun.
  destruct (schedule_employees_Ok _ _ _ _ _ _ Hcap Hrun) as [-> _].
  pose proof (after_backfill_Roster cfg (unique_cleaned names) Hmax S raw) as HR.
  split; [apply HR|apply HR].
Qed.

Lemma schedule_lists_employees_in_all_slots_witness :
  ∃ sc ws,
    schedule_employees lcg_shuffler nine_employees sample_preferences
      default_config = Ok (sc, ws) ∧
    (∀ day shift emp, emp ∈ slot sc day shift →
       emp ∈ unique_cleaned nine_employees) ∧
    (∀ day shift, day ∈ DAYS → shift ∈ SHIFTS →
       is_Some (sc !! day ≫= (.!! shift))).
Proof.
  pose proof nine_employees_run_ok as Hok.
  destruct (schedule_employees lcg_shuffler nine_employees sample_preferences
              default_config) as [[sc ws]| | |] eqn:Hrun; try discriminate Hok.
  exists sc, ws. split; [reflexivity|].
  exact (schedule_lists_employees_in_all_slots lcg_shuffler nine_employees
           sample_preferences default_config sc ws in_int_4 in_int_5 Hrun).
Defined.

(** With a positive [max_per_shift], no shift of a returned schedule holds
    more employees than that. *)
Theorem schedule_respects_shift_capacity S names raw cfg sc ws :
  in_int (max_per_shift cfg) → in_int (max_days_per_employee cfg) →
  (0 < max_per_shift cfg)%Z →
  schedule_employees S names raw cfg = Ok (sc, ws) →
  ∀ day shift, (Z.of_nat (length (slot sc day shift)) ≤ max_per_shift cfg)%Z.
Proof.
  intros Hmax Hcap Hpos Hrun.
  destruct (schedule_employees_Ok _ _ _ _ _ _ Hcap Hrun) as [-> _].
  pose proof (after_backfill_Roster cfg (unique_cleaned names) Hmax S raw) as HR.
  by apply HR.
Qed.

Lemma schedule_respects_shift_capacity_witness :
  ∃ sc ws,
    schedule_employees lcg_shuffler nine_employees sample_preferences
      default_config = Ok (sc, ws) ∧
    ∀ day shift, (Z.of_nat (length (slot sc day shift)) ≤ 4)%Z.
Proof.
  pose proof nine_employees_run_ok as Hok.
  destruct (schedule_employees lcg_shuffler nine_employees sample_preferences
              default_config) as [[sc ws]| | |] eqn:Hrun; try discriminate Hok.
  exists sc, ws. split; [reflexivity|].
  refine (schedule_respects_shift_capacity lcg_shuffler nine_employees
            sample_preferences default_config sc ws in_int_4 in_int_5 _ Hrun).
  simpl. lia.
Defined.

(** *** The warnings returned *)

Lemma fold_left_bind {A K L} (f : A → L → A) (g : K → list L) ks a :
  fold_left f (ks ≫= g) a = fold_left (λ a k, fold_left f (g k) a) ks a.
Proof.
  revert a. induction ks as [|k ks IH]; intros a; [done|].
  rewrite bind_cons, fold_left_app. simpl. apply IH.
Qed.

(** A loop keeps an invariant that speaks of the keys already visited. *)
Lemma fold_left_visited {A K} (I : list K → A → Prop) (f : A → K → A) ks a :
  NoDup ks → I [] a →
  (∀ pre k a, k ∈ ks → k ∉ pre → I pre a → I (pre ++ [k]) (f a k)) →
  I ks (fold_left f ks a).
Proof.
  intros Hnd H0 Hstep. induction ks as [|k ks IH] using rev_ind; [done|].
  rewrite fold_left_app. simpl.
  apply NoDup_app in Hnd as (Hnd & Hk & _).
  apply Hstep.
  - apply elem_of_app. right. by left.
  - intros Hin. apply (Hk k Hin). by left.
  - apply IH; [done|]. intros pre k' a' Hin. apply Hstep.
    apply elem_of_app. by left.
Qed.

Lemma NoDup_all_slots : NoDup all_slots.
Proof. by apply (bool_decide_unpack _). Qed.

Lemma backfill_flat S cfg employees p :
  backfill S cfg employees p =
  fold_left (λ p k, backfill_slot S cfg employees k.1 p k.2) all_slots p.
Proof.
  unfold backfill, all_slots. rewrite fold_left_bind.
  revert p. generalize DAYS. intros days.
  induction days as [|d days IH]; intros p; [done|]. simpl. by rewrite <- IH.
Qed.

Lemma warnings_assign st d s e : warnings (assign st d s e) = warnings st.
Proof. done. Qed.

Lemma warnings_try_rank cfg prefs day rank st emp :
  warnings (try_rank cfg prefs day rank st emp) = warnings st.
Proof. unfold try_rank. by repeat case_match. Qed.

Lemma warnings_place_first cfg st day emp order st' :
  place_first cfg st day emp order = Some st' → warnings st' = warnings st.
Proof.
  induction order as [|s order IH]; simpl; [done|].
  case_match; [by intros [= <-]|done].
Qed.

Lemma warnings_fallback cfg prefs di day st emp :
  warnings (fallback cfg prefs di day st emp) = warnings st.
Proof.
  unfold fallback. case_bool_decide; [done|]. case_match; [done|].
  destruct (pref_of prefs emp day); [done|].
  destruct (place_first _ _ _ _ _) eqn:Hp; [by eapply warnings_place_first|].
  by case_match.
Qed.

Lemma warnings_after_days cfg raw employees :
  warnings (after_days cfg raw employees) = [].
Proof.
  unfold after_days.
  apply (fold_left_preserves (λ st, warnings st = [])); [|done].
  intros st di Hst. unfold schedule_day.
  apply (fold_left_preserves (λ st, warnings st = [])).
  { intros st' e <-. apply warnings_fallback. }
  apply (fold_left_preserves (λ st, warnings st = [])); [|done].
  intros st' rank Hst'.
  apply (fold_left_preserves (λ st, warnings st = [])); [|done].
  intros st'' e <-. apply warnings_try_rank.
Qed.

(** The turn of a slot appends the warning of that slot, if it is short. *)
Lemma backfill_slot_warnings S cfg employees day shift p :
  in_int (min_per_shift cfg) →
  (Z.of_nat (length (slot (sched (backfill_slot S cfg employees day p shift).1)
                       day shift)) ≤ INT_MAX)%Z →
  warnings (backfill_slot S cfg employees day p shift).1 =
  warnings p.1 ++
  short_warning cfg (sched (backfill_slot S cfg employees day p shift).1)
    (day, shift).
Proof.
  intros Hmin. destruct p as [st g]. unfold backfill_slot, short_warning.
  assert (∀ l : list string,
    (Z.of_nat (length l) < min_per_shift cfg)%Z → int_size l = Z.of_nat (length l))
    as Hsmall.
  { intros l Hl. apply int_size_small. unfold in_int in Hmin. lia. }
  destruct (Z.leb_spec (int_sub (min_per_shift cfg)
              (int_size (slot (sched st) day shift))) 0) as [Hneed|Hneed].
  - intros _. cbn [fst snd]. case_match eqn:Hlt; [|by rewrite app_nil_r].
    apply Z.ltb_lt in Hlt. exfalso.
    rewrite (Hsmall _ Hlt) in Hneed. unfold int_sub in Hneed.
    rewrite to_int_id in Hneed; [lia|].
    unfold in_int, INT_MIN, INT_MAX in *. lia.
  - destruct (shuffle S _ g) as [cands g'].
    set (st' := backfill_take cfg day shift _ cands 0 st).
    assert (warnings st' = warnings st) as Hw by apply backfill_take_frame.
    cbn [fst snd].
    destruct (Z.ltb_spec (int_size (slot (sched st') day shift))
                (min_per_shift cfg)) as [Hshort|Hok];
      cbn [warnings push_warning sched]; rewrite Hw; intros Hlen.
    + rewrite int_size_small in Hshort by done.
      by rewrite (proj2 (Z.ltb_lt _ _) Hshort).
    + destruct (Z.ltb_spec (Z.of_nat (length (slot (sched st') day shift)))
                  (min_per_shift cfg)) as [Hlt|Hge]; [|by rewrite app_nil_r].
      rewrite (Hsmall _ Hlt) in Hok. lia.
Qed.

Lemma unique_cleaned_length names :
  (length (unique_cleaned names) ≤ length names)%nat.
Proof.
  induction names as [|n names IH] using rev_ind; [done|].
  destruct (unique_cleaned_snoc names n) as (_ & -> & _).
  rewrite !length_app. case_decide; simpl; lia.
Qed.

(** A slot of a state that keeps both invariants is no longer than the
    employee list. *)
Lemma slot_length_le cfg employees st d s :
  Inv cfg st → Roster cfg employees st → s ∈ SHIFTS →
  (length (slot (sched st) d s) ≤ length employees)%nat.
Proof.
  intros HI HR Hs. apply submseteq_length, NoDup_submseteq.
  - pose proof (inv_nodup _ _ HI d) as Hnd. unfold day_list, SHIFTS in *.
    simpl in Hnd. rewrite app_nil_r in Hnd.
    apply NoDup_app in Hnd as (H1 & _ & [H2 [_ H3]]%NoDup_app).
    repeat (apply elem_of_cons in Hs as [->|Hs]); try done.
    by apply elem_of_nil in Hs.
  - intros e. by apply (roster_members _ _ _ HR).
Qed.

Lemma after_backfill_warnings S cfg raw names :
  config_in_range cfg →
  (Z.of_nat (length names) ≤ INT_MAX)%Z →
  warnings (after_backfill S cfg raw (unique_cleaned names)) =
  short_slot_warnings cfg (sched (after_backfill S cfg raw (unique_cleaned names))).
Proof.
  intros (Hmin & Hmax & Hcap & _) Hlen.
  unfold after_backfill, short_slot_warnings.
  rewrite backfill_flat.
  pose proof (unique_cleaned_NoDup names) as Hnd.
  pose proof (unique_cleaned_length names) as Hle.
  cut (let p := fold_left
                  (λ p k, backfill_slot S cfg (unique_cleaned names) k.1 p k.2)
                  all_slots
                  (after_days cfg raw (unique_cleaned names),
                   mt19937 S (random_seed cfg)) in
       Inv cfg p.1 ∧ Roster cfg (unique_cleaned names) p.1 ∧
       warnings p.1 = all_slots ≫= short_warning cfg (sched p.1)).
  { by intros (_ & _ & ?). }
  apply (fold_left_visited
    (λ pre (p : State * rng_state S),
       Inv cfg p.1 ∧ Roster cfg (unique_cleaned names) p.1 ∧
       warnings p.1 = pre ≫= short_warning cfg (sched p.1))
    (λ p k, backfill_slot S cfg (unique_cleaned names) k.1 p k.2) all_slots).
  - apply NoDup_all_slots.
  - cbn [fst]. split; [|split; [|apply warnings_after_days]].
    + apply (fold_left_preserves (Inv cfg)); [|apply Inv_init].
      intros. by apply schedule_day_Inv.
    + apply (fold_left_preserves (Roster cfg (unique_cleaned names)));
        [|apply Roster_init].
      intros. by apply schedule_day_Roster.
  - intros pre [d s] p Hall Hk (HI & HR & Hpre). cbn [fst snd].
    assert (s ∈ SHIFTS) as Hs.
    { unfold all_slots in Hall. apply list_elem_of_bind in Hall as (d' & Hin & _).
      apply list_elem_of_bind in Hin as (s' & [= _ ->]%list_elem_of_singleton & ?).
      done. }
    pose proof (backfill_slot_Inv S cfg (unique_cleaned names) Hcap Hnd d s p HI) as HI'.
    pose proof (backfill_slot_Roster cfg (unique_cleaned names) Hmax S d s p HR) as HR'.
    split; [done|]. split; [done|].
    rewrite backfill_slot_warnings; [|done|].
    + rewrite Hpre, bind_app, bind_singleton. f_equal.
      symmetry. apply bind_same. intros [d' s'] Hin.
      unfold short_warning. cbn [fst snd].
      destruct (backfill_slot_frame S cfg (unique_cleaned names) d s p d' s')
        as [-> _]; [|done].
      intros [-> ->]. done.
    + pose proof (slot_length_le cfg _ _ d s HI' HR' Hs). lia.
Qed.

Lemma default_config_in_range : config_in_range default_config.
Proof. unfold config_in_range, in_int, INT_MIN, INT_MAX. simpl. lia. Qed.

(** The warnings of a normal return are exactly the staffing warnings of the
    slots that end short, one each, in the order of days and shifts; no
    relocation note is ever produced.  (The fields of the configuration
    hold [int] values and the names are fewer than 2^31.) *)
Theorem warnings_are_the_short_slots S names raw cfg sc ws :
  config_in_range cfg →
  (Z.of_nat (length names) ≤ INT_MAX)%Z →
  schedule_employees S names raw cfg = Ok (sc, ws) →
  ws = short_slot_warnings cfg sc.
Proof.
  intros Hcfg Hlen Hrun.
  destruct (schedule_employees_Ok _ _ _ _ _ _ (proj1 (proj2 (proj2 Hcfg))) Hrun)
    as [-> ->].
  by apply after_backfill_warnings.
Qed.

Lemma warnings_are_the_short_slots_witness :
  ∃ sc ws,
    schedule_employees lcg_shuffler nine_employees sample_preferences
      default_config = Ok (sc, ws) ∧
    ws = short_slot_warnings default_config sc.
Proof.
  pose proof nine_employees_run_ok as Hok.
  destruct (schedule_employees lcg_shuffler nine_employees sample_preferences
              default_config) as [[sc ws]| | |] eqn:Hrun; try discriminate Hok.
  exists sc, ws. split; [reflexivity|].
  refine (warnings_are_the_short_slots lcg_shuffler nine_employees
            sample_preferences default_config sc ws default_config_in_range _ Hrun).
  unfold INT_MAX. simpl. lia.
Defined.

(** *** Employees without preferences wait for the backfill *)

Section unpreferenced.
Context (cfg : Config) (prefs : gmap string (gmap string (list string))) (e : string).
Context (Hnone : ∀ day, pref_of prefs e day = []).

Lemma assign_absent st d s emp :
  emp ≠ e → absent e st → absent e (assign st d s emp).
Proof.
  intros Hne Hst d' s'. rewrite slot_assign. case_decide; [|apply Hst].
  intros [?| ->%list_elem_of_singleton]%elem_of_app; [by eapply Hst|done].
Qed.

Lemma try_rank_absent day rank st emp :
  absent e st → absent e (try_rank cfg prefs day rank st emp).
Proof.
  intros Hst. unfold try_rank.
  case_bool_decide; [done|]. case_match; [done|].
  destruct (decide (emp = e)) as [->|Hne].
  - rewrite Hnone. change (int_size []) with 0%Z.
    by destruct (Z.leb_spec 0 (Z.of_nat rank)); [|lia].
  - repeat case_match; try done. by apply assign_absent.
Qed.

Lemma place_first_absent st day emp order st' :
  emp ≠ e → absent e st →
  place_first cfg st day emp order = Some st' → absent e st'.
Proof.
  intros Hne Hst. induction order as [|s order IH]; simpl; [done|].
  case_match; [|done]. intros [= <-]. by apply assign_absent.
Qed.

Lemma fallback_absent di day st emp :
  absent e st → absent e (fallback cfg prefs di day st emp).
Proof.
  intros Hst. unfold fallback.
  case_bool_decide; [done|]. case_match; [done|].
  destruct (decide (emp = e)) as [->|Hne]; [by rewrite Hnone|].
  destruct (pref_of prefs emp day); [done|].
  destruct (place_first _ _ _ _ _) eqn:Hp; [by eapply place_first_absent|].
  by case_match.
Qed.

Lemma schedule_day_absent employees st di :
  absent e st → absent e (schedule_day cfg prefs employees st di).
Proof.
  intros Hst. unfold schedule_day.
  apply (fold_left_preserves (absent e)); [intros; by apply fallback_absent|].
  apply (fold_left_preserves (absent e)); [|done].
  intros st' rank Hst'. apply (fold_left_preserves (absent e)); [|done].
  intros; by apply try_rank_absent.
Qed.

End unpreferenced.

(** An employee who has no recognized preference on any day is not placed
    by the preference passes: after the loop over the days nobody of that
    kind is in any slot, so only the backfill can place them. *)
Theorem unpreferenced_employee_waits_for_backfill cfg raw employees e :
  (∀ day, pref_of (normalize_preferences raw) e day = []) →
  ∀ day shift, e ∉ slot (sched (after_days cfg raw employees)) day shift.
Proof.
  intros Hnone. unfold after_days.
  apply (fold_left_preserves (absent e)).
  - intros st di Hst. by apply schedule_day_absent.
  - intros d s. simpl. rewrite slot_empty_schedule. by intros ?%elem_of_nil.
Qed.

Lemma unpreferenced_employee_waits_for_backfill_witness :
  "Charlie" ∉ slot (sched (after_days default_config sample_preferences
                             nine_employees)) "Mon" "morning".
Proof.
  apply (unpreferenced_employee_waits_for_backfill default_config
           sample_preferences nine_employees "Charlie").
  intros day. unfold pref_of. rewrite normalize_preferences_fmap, lookup_fmap.
  by vm_compute.
Defined.

(** *** The claims about the schedule *)

(** C1 (amended).  On every normal return, for a configuration of [int]
    fields, nobody is listed twice among the three shifts of a day, and
    nobody holds more shift-slots over the week than the larger of zero and
    [max_days_per_employee]; the relocation pass never has to give up on
    anybody. *)
Theorem schedule_one_shift_per_day_and_weekly_cap S names raw cfg sc ws :
  in_int (max_days_per_employee cfg) →
  schedule_employees S names raw cfg = Ok (sc, ws) →
  (∀ day, NoDup (day_list sc day)) ∧
  (∀ emp, (Z.of_nat (shift_slots sc emp) ≤ Z.max 0 (max_days_per_employee cfg))%Z).
Proof.
  intros Hcap Hrun.
  destruct (schedule_employees_Ok _ _ _ _ _ _ Hcap Hrun) as [-> _].
  pose proof (after_backfill_Inv S cfg raw names Hcap) as HI.
  split; [apply HI|].
  intros emp. pose proof (inv_count _ _ HI emp). pose proof (inv_worked _ _ HI emp).
  lia.
Qed.

Lemma schedule_one_shift_per_day_and_weekly_cap_witness :
  ∃ sc ws,
    schedule_employees lcg_shuffler nine_employees sample_preferences
      default_config = Ok (sc, ws) ∧
    (∀ day, NoDup (day_list sc day)) ∧
    (∀ emp, (Z.of_nat (shift_slots sc emp) ≤ Z.max 0 5)%Z).
Proof.
  pose proof nine_employees_run_ok as Hok.
  destruct (schedule_employees lcg_shuffler nine_employees sample_preferences
              default_config) as [[sc ws]| | |] eqn:Hrun; try discriminate Hok.
  exists sc, ws. split; [reflexivity|].
  exact (schedule_one_shift_per_day_and_weekly_cap lcg_shuffler nine_employees
           sample_preferences default_config sc ws in_int_5 Hrun).
Defined.

(** C1 as stated fails for a negative weekly cap: the call returns normally
    with nobody placed and no note, and zero slots exceed a cap of -1. *)
Lemma negative_weekly_cap_is_exceeded :
  match schedule_employees lcg_shuffler ["A"] ∅
          {| min_per_shift := -1; max_per_shift := 4;
             max_days_per_employee := -1; random_seed := 42 |} with
  | Ok (sc, ws) =>
      ws = [] ∧ shift_slots sc "A" = 0%nat ∧
      ¬ (Z.of_nat (shift_slots sc "A") ≤ -1)%Z
  | _ => False
  end.
Proof. vm_compute. split; [done|]. split; [done|]. intros H. by apply H. Qed.

(** C4 (amended).  On every normal return, each of the 21 slots that ends
    with fewer than [min_per_shift] employees has its warning, which names
    the day, the shift, the number present and the number required. *)
Theorem understaffed_slot_has_warning S names raw cfg sc ws :
  in_int (min_per_shift cfg) →
  in_int (max_days_per_employee cfg) →
  schedule_employees S names raw cfg = Ok (sc, ws) →
  ∀ day shift, day ∈ DAYS → shift ∈ SHIFTS →
    (Z.of_nat (length (slot sc day shift)) < min_per_shift cfg)%Z →
    staffing_warning day shift (length (slot sc day shift)) (min_per_shift cfg)
      ∈ ws.
Proof.
  intros Hmin Hcap Hrun day shift Hday Hshift.
  destruct (schedule_employees_Ok _ _ _ _ _ _ Hcap Hrun) as [-> ->].
  by apply backfill_reports.
Qed.

Lemma understaffed_slot_has_warning_witness :
  ∃ sc ws,
    schedule_employees lcg_shuffler nine_employees sample_preferences
      default_config = Ok (sc, ws) ∧
    ∀ day shift, day ∈ DAYS → shift ∈ SHIFTS →
      (Z.of_nat (length (slot sc day shift)) < 2)%Z →
      staffing_warning day shift (length (slot sc day shift)) 2 ∈ ws.
Proof.
  pose proof nine_employees_run_ok as Hok.
  destruct (schedule_employees lcg_shuffler nine_employees sample_preferences
              default_config) as [[sc ws]| | |] eqn:Hrun; try discriminate Hok.
  exists sc, ws. split; [reflexivity|].
  exact (understaffed_slot_has_warning lcg_shuffler nine_employees
           sample_preferences default_config sc ws in_int_5 in_int_5 Hrun).
Defined.

(** The example of C4 does not get as far as a schedule: four employees
    under the default configuration supply 20 slots where 42 are required. *)
Lemma four_employees_are_infeasible :
  schedule_employees lcg_shuffler ["A"; "B"; "C"; "D"] ∅ default_config =
  RuntimeError
    "Infeasible: need at least 42 total shift assignments, but employee supply caps at 20. Consider adding ~5 more employees or increasing max_days_per_employee.".
Proof. vm_compute. reflexivity. Qed.

(** The order of the hash table does not matter to
    [normalize_preferences]: an employee is met once, so no turn of the loop
    writes where another one wrote. *)
Lemma normalize_entry_fresh prefs emp per_day :
  prefs !! emp = None →
  normalize_entry prefs (emp, per_day) = <[emp := normalize_employee per_day]> prefs.
Proof. intros Hemp. unfold normalize_entry. by rewrite Hemp. Qed.

Lemma normalize_along_lookup entries prefs k :
  NoDup entries.*1 → (∀ e, e ∈ entries.*1 → prefs !! e = None) →
  fold_left normalize_entry entries prefs !! k =
    match (list_to_map entries : gmap string (gmap string PrefValue)) !! k with
    | Some per_day => Some (normalize_employee per_day)
    | None => prefs !! k
    end.
Proof.
  revert prefs. induction entries as [|[emp per_day] entries IH]; intros prefs Hnd Hfresh.
  - cbn [fold_left]. by rewrite list_to_map_nil, lookup_empty.
  - rewrite fmap_cons in Hnd. apply NoDup_cons in Hnd as [Hemp Hnd].
    cbn [fold_left]. rewrite normalize_entry_fresh by (apply Hfresh; left).
    rewrite IH; [|done|].
    + rewrite list_to_map_cons. destruct (decide (k = emp)) as [->|Hk].
      * rewrite lookup_insert_eq.
        rewrite (not_elem_of_list_to_map_1 entries emp Hemp).
        by rewrite lookup_insert_eq.
      * rewrite !(lookup_insert_ne _ emp k) by done. done.
    + intros e He. rewrite lookup_insert_ne; [|by intros ->].
      apply Hfresh. by right.
Qed.

Lemma normalize_preferences_any_order entries raw :
  entries ≡ₚ map_to_list raw →
  normalize_preferences_along entries = normalize_preferences raw.
Proof.
  intros Hperm. rewrite normalize_preferences_fmap.
  assert (NoDup entries.*1) as Hnd.
  { rewrite Hperm. apply NoDup_fst_map_to_list. }
  apply map_eq. intros k. unfold normalize_preferences_along.
  rewrite normalize_along_lookup; [|done|by intros; rewrite lookup_empty].
  rewrite (list_to_map_proper _ _ Hnd Hperm), list_to_map_to_list.
  rewrite lookup_fmap, lookup_empty. by destruct (raw !! k).
Qed.

Lemma schedule_employees_in_order_eq S names entries raw cfg :
  entries ≡ₚ map_to_list raw →
  schedule_employees_in_order S names entries cfg =
  schedule_employees S names raw cfg.
Proof.
  intros Hperm. unfold schedule_employees_in_order, schedule_employees.
  by rewrite (normalize_preferences_any_order entries raw Hperm).
Qed.

(** The generator is read by the shuffles of the backfill only, one state
    handed from each to the next. *)
Section generators.
Variables S1 S2 : Shuffler.
Variable R : rng_state S1 → rng_state S2 → Prop.
Hypothesis Hshuffles : same_shuffles S1 S2 R.
Variable cfg : Config.
Variable employees : list string.

Lemma backfill_slot_same day shift st g1 g2 :
  R g1 g2 →
  (backfill_slot S1 cfg employees day (st, g1) shift).1 =
  (backfill_slot S2 cfg employees day (st, g2) shift).1 ∧
  R (backfill_slot S1 cfg employees day (st, g1) shift).2
    (backfill_slot S2 cfg employees day (st, g2) shift).2.
Proof.
  intros Hg. unfold backfill_slot.
  destruct (_ <=? 0)%Z; [done|].
  destruct (Hshuffles (filter (λ e, (e ∉ assigned st day) ∧
              (worked st e < max_days_per_employee cfg)%Z) employees) g1 g2 Hg)
    as [Hl Hg'].
  destruct (shuffle S1 _ g1) as [c1 g1'], (shuffle S2 _ g2) as [c2 g2'].
  cbn [fst snd] in *. subst c2. done.
Qed.

Lemma backfill_same st g1 g2 :
  R g1 g2 →
  (backfill S1 cfg employees (st, g1)).1 = (backfill S2 cfg employees (st, g2)).1.
Proof.
  intros Hg. unfold backfill.
  set (Rp := λ (p1 : State * rng_state S1) (p2 : State * rng_state S2),
               p1.1 = p2.1 ∧ R p1.2 p2.2).
  assert (∀ day shifts p1 p2, Rp p1 p2 →
            Rp (fold_left (backfill_slot S1 cfg employees day) shifts p1)
               (fold_left (backfill_slot S2 cfg employees day) shifts p2)) as Hday.
  { intros day shifts. induction shifts as [|shift shifts IH]; intros p1 p2 Hp; [done|].
    cbn [fold_left]. apply IH. destruct p1 as [st1 h1], p2 as [st2 h2].
    destruct Hp as [Hst Hh]. cbn [fst snd] in *. subst st2.
    by apply backfill_slot_same. }
  assert (∀ days p1 p2, Rp p1 p2 →
            Rp (fold_left (λ p day,
                  fold_left (backfill_slot S1 cfg employees day) SHIFTS p) days p1)
               (fold_left (λ p day,
                  fold_left (backfill_slot S2 cfg employees day) SHIFTS p) days p2))
    as Hweek.
  { intros days. induction days as [|day days IH]; intros p1 p2 Hp; [done|].
    cbn [fold_left]. by apply IH, Hday. }
  by apply Hweek.
Qed.

End generators.

(** C5.  A run is determined by the employees, the preferences and the
    configuration, seed included.  Take two runs on the same arguments: one
    meets the entries of the preference table in the order [entries1] and
    draws from the generator [S1], the other in the order [entries2] and
    from [S2], where the two generators, seeded with [random_seed], shuffle
    alike.  They return the same schedule and the same warnings, backfilled
    slots included, or fail alike; and this common result is the one of
    [schedule_employees]. *)
Theorem schedule_employees_deterministic S1 S2 R entries1 entries2 names raw cfg :
  entries1 ≡ₚ map_to_list raw → entries2 ≡ₚ map_to_list raw →
  R (mt19937 S1 (random_seed cfg)) (mt19937 S2 (random_seed cfg)) →
  same_shuffles S1 S2 R →
  schedule_employees_in_order S1 names entries1 cfg =
    schedule_employees_in_order S2 names entries2 cfg ∧
  schedule_employees_in_order S2 names entries2 cfg =
    schedule_employees S2 names raw cfg.
Proof.
  intros H1 H2 Hseed Hshuffles.
  rewrite (schedule_employees_in_order_eq S1 names entries1 raw cfg H1).
  rewrite (schedule_employees_in_order_eq S2 names entries2 raw cfg H2).
  split; [|done]. rewrite !schedule_employees_eq.
  destruct (unique_cleaned names) as [|e0 emps]; [done|].
  destruct (feasible_or_raise _ _); try done.
  unfold after_backfill.
  by rewrite (backfill_same S1 S2 R Hshuffles cfg (e0 :: emps) _ _ _ Hseed).
Qed.

Lemma schedule_employees_deterministic_witness :
  schedule_employees_in_order lcg_shuffler nine_employees
    (reverse (map_to_list sample_preferences)) default_config =
    schedule_employees_in_order lcg_shuffler nine_employees
      (map_to_list sample_preferences) default_config ∧
  schedule_employees_in_order lcg_shuffler nine_employees
    (map_to_list sample_preferences) default_config =
    schedule_employees lcg_shuffler nine_employees sample_preferences
      default_config.
Proof.
  apply (schedule_employees_deterministic lcg_shuffler lcg_shuffler eq).
  - apply reverse_Permutation.
  - reflexivity.
  - reflexivity.
  - intros l g1 g2 ->. split; reflexivity.
Defined.

End SchedulerFacts.

(** ** The kinship rules *)
Module KinshipFacts.
Import Kinship.

Section rules.
Variable parent : list (string * string).

Lemma elem_of_children a d : d ∈ children parent a ↔ (a, d) ∈ parent.
Proof.
  unfold children. rewrite list_elem_of_fmap. split.
  - intros [[p c] [-> [Hp Hin]%list_elem_of_filter]]. simpl in *. by subst.
  - intros Hin. exists (a, d). split; [done|]. by apply list_elem_of_filter.
Qed.

Lemma elem_of_parents p x : p ∈ parents parent x ↔ (p, x) ∈ parent.
Proof.
  unfold parents. rewrite list_elem_of_fmap. split.
  - intros [[q c] [-> [Hp Hin]%list_elem_of_filter]]. simpl in *. by subst.
  - intros Hin. exists (p, x). split; [done|]. by apply list_elem_of_filter.
Qed.

(** C8.  [descendant] is [ancestor] under another name: the two relations
    hold of the same pairs (parent towards child, not the inverse), and the
    two searches return the same answers in the same order. *)
Theorem descendant_is_ancestor a d :
  (descendant parent a d ↔ ancestor parent a d) ∧
  (∀ depth, descendant_answers parent depth a = ancestor_answers parent depth a).
Proof.
  split.
  - split.
    + induction 1 as [a d H|a m d H _ IH].
      * by apply ancestor_parent.
      * by eapply ancestor_step.
    + induction 1 as [a d H|a m d H _ IH].
      * by apply descendant_parent.
      * by eapply descendant_step.
  - intros depth. revert a. induction depth as [|depth IH]; intros a; simpl; [done|].
    f_equal; by apply list_bind_ext.
Qed.

(** *** The searches find the relations *)

Lemma ancestor_answers_sound depth a d :
  d ∈ ancestor_answers parent depth a → ancestor parent a d.
Proof.
  revert a. induction depth as [|depth IH]; intros a; simpl.
  - by intros ?%elem_of_nil.
  - intros [Hd|Hd]%elem_of_app.
    + apply ancestor_parent. by apply elem_of_children.
    + apply list_elem_of_bind in Hd as (m & Hd & Hm).
      apply ancestor_step with m; [by apply elem_of_children|by apply IH].
Qed.

Lemma ancestor_answers_mono depth depth' a d :
  (depth ≤ depth')%nat →
  d ∈ ancestor_answers parent depth a → d ∈ ancestor_answers parent depth' a.
Proof.
  revert depth' a. induction depth as [|depth IH]; intros depth' a Hle; simpl.
  - by intros ?%elem_of_nil.
  - destruct depth' as [|depth']; [lia|]. simpl.
    rewrite !elem_of_app. intros [Hd|Hd]; [by left|right].
    apply list_elem_of_bind in Hd as (m & Hd & Hm).
    apply list_elem_of_bind. exists m. split; [|done]. apply IH; [lia|done].
Qed.

Lemma ancestor_answers_complete a d :
  ancestor parent a d → ∃ depth, d ∈ ancestor_answers parent depth a.
Proof.
  induction 1 as [a d H|a m d H _ [depth IH]].
  - exists 1%nat. simpl. apply elem_of_app. left. by apply elem_of_children.
  - exists (S depth). simpl. apply elem_of_app. right.
    apply list_elem_of_bind. exists m. split; [done|]. by apply elem_of_children.
Qed.

(** For every fact base: the answers of the ancestor search, at any depth,
    are ancestors; every ancestor is an answer from some depth on; and the
    relation is transitive. *)
Theorem ancestor_search_finds_ancestors a d :
  (ancestor parent a d ↔ ∃ depth, d ∈ ancestor_answers parent depth a) ∧
  (∀ depth depth', (depth ≤ depth')%nat →
     d ∈ ancestor_answers parent depth a → d ∈ ancestor_answers parent depth' a) ∧
  (∀ m, ancestor parent a m → ancestor parent m d → ancestor parent a d).
Proof.
  split; [|split].
  - split; [apply ancestor_answers_complete|].
    intros [depth H]. by eapply ancestor_answers_sound.
  - intros depth depth'. apply ancestor_answers_mono.
  - intros m H1 H2. induction H1 as [a m H|a m' m H _ IH].
    + by eapply ancestor_step.
    + eapply ancestor_step; [done|]. by apply IH.
Qed.

Lemma ancestor_n_steps_spec k a d :
  d ∈ ancestor_n_steps parent k a ↔ ancestor_n parent a d (Z.of_nat k).
Proof.
  revert a. induction k as [|k IH]; intros a.
  - simpl. split; [by intros ?%elem_of_nil|]. inversion 1; lia.
  - destruct k as [|k].
    + simpl. rewrite elem_of_children. split; [by constructor|].
      inversion 1; [done|lia].
    + change (ancestor_n_steps parent (S (S k)) a)
        with (children parent a ≫= ancestor_n_steps parent (S k)).
      rewrite list_elem_of_bind. split.
      * intros (m & Hd & Hm%elem_of_children).
        apply ancestor_n_more with m; [lia|done|].
        replace (Z.of_nat (S (S k)) - 1)%Z with (Z.of_nat (S k)) by lia.
        by apply IH.
      * inversion 1 as [|? m ? ? Hn Hp Hrest]; [lia|]. subst.
        exists m. split; [|by apply elem_of_children].
        apply IH. by replace (Z.of_nat (S k)) with (Z.of_nat (S (S k)) - 1)%Z by lia.
Qed.

Lemma ancestor_n_positive a d n : ancestor_n parent a d n → (1 ≤ n)%Z.
Proof. induction 1; lia. Qed.

(** [ancestor_n] counts the links of a chain: its answers for [n] are the
    people exactly [n] parent links below, there is none for [n < 1], a
    grandparent is a parent of a parent, and an ancestor is somebody [n]
    links above for some [n]. *)
Theorem ancestor_n_counts_generations a d :
  (∀ n, d ∈ ancestor_n_answers parent a n ↔ ancestor_n parent a d n) ∧
  (∀ n, ancestor_n parent a d n → (1 ≤ n)%Z) ∧
  (grandparent parent a d ↔ ∃ m, (a, m) ∈ parent ∧ (m, d) ∈ parent) ∧
  (ancestor parent a d ↔ ∃ n, ancestor_n parent a d n).
Proof.
  split; [|split; [|split]].
  - intros n. unfold ancestor_n_answers. rewrite ancestor_n_steps_spec.
    destruct (Z.le_gt_cases 0 n) as [Hn|Hn].
    + by rewrite Z2Nat.id.
    + replace (Z.to_nat n) with 0%nat by lia. simpl.
      split; [inversion 1; lia|]. intros H%ancestor_n_positive. lia.
  - apply ancestor_n_positive.
  - unfold grandparent. split.
    + inversion 1 as [|? m ? ? _ Hp Hrest]; subst.
      exists m. split; [done|]. simpl in Hrest. inversion Hrest; [done|lia].
    + intros (m & H1 & H2). apply ancestor_n_more with m; [lia|done|].
      by constructor.
  - split.
    + induction 1 as [a d H|a m d H _ [n IH]].
      * exists 1%Z. by constructor.
      * exists (n + 1)%Z. apply ancestor_n_more with m; [|done|].
        -- apply ancestor_n_positive in IH. lia.
        -- by replace (n + 1 - 1)%Z with n by lia.
    + intros [n H]. induction H as [a d H|a m d n _ H _ IH].
      * by apply ancestor_parent.
      * by eapply ancestor_step.
Qed.

Lemma elem_of_sibling_answers x y :
  y ∈ sibling_answers parent x ↔ sibling parent x y.
Proof.
  unfold sibling_answers, sibling. rewrite list_elem_of_bind. split.
  - intros (p & [Hne Hy%elem_of_children]%list_elem_of_filter & Hp%elem_of_parents).
    by exists p.
  - intros (p & Hx & Hy & Hne). exists p. split; [|by apply elem_of_parents].
    apply list_elem_of_filter. split; [done|]. by apply elem_of_children.
Qed.

(** [sibling] and [cousin] are symmetric and hold of no person with
    themselves; the sibling search returns exactly the siblings, and the
    ground query [cousin(x, y)] succeeds exactly for cousins. *)
Theorem sibling_and_cousin_are_symmetric x y :
  (sibling parent x y → sibling parent y x) ∧
  ¬ sibling parent x x ∧
  (y ∈ sibling_answers parent x ↔ sibling parent x y) ∧
  (cousin parent x y → cousin parent y x) ∧
  ¬ cousin parent x x ∧
  (cousin_proofs parent x y ≠ [] ↔ cousin parent x y).
Proof.
  assert (∀ u v, sibling parent u v → sibling parent v u) as Hsym.
  { intros u v (p & Hu & Hv & Hne). exists p. by repeat split. }
  split; [apply Hsym|]. split; [by intros (p & _ & _ & Hne)|].
  split; [apply elem_of_sibling_answers|].
  split; [|split].
  - intros (Hne & px & py & Hx & Hy & Hs). split; [done|].
    exists py, px. repeat split; try done. by apply Hsym.
  - by intros [Hne _].
  - unfold cousin_proofs, cousin. case_decide as Hne.
    + split.
      * intros Hnil. split; [done|].
        destruct (_ ≫= _) as [|[px py] rest] eqn:Hb; [done|].
        assert ((px, py) ∈ (parents parent x ≫= λ px,
                  parents parent y ≫= λ py,
                    (λ _, (px, py)) <$>
                      filter (λ z, z = py) (sibling_answers parent px))) as Hin.
        { rewrite Hb. by left. }
        apply list_elem_of_bind in Hin as (px' & Hin & Hpx%elem_of_parents).
        apply list_elem_of_bind in Hin as (py' & Hin & Hpy%elem_of_parents).
        apply list_elem_of_fmap in Hin as (z & [= -> ->] & Hz).
        apply list_elem_of_filter in Hz as [-> Hz%elem_of_sibling_answers].
        by exists px', py'.
      * intros (_ & px & py & Hx & Hy & Hs) Hnil.
        assert ((px, py) ∈ (parents parent x ≫= λ px,
                  parents parent y ≫= λ py,
                    (λ _, (px, py)) <$>
                      filter (λ z, z = py) (sibling_answers parent px))) as Hin.
        { apply list_elem_of_bind. exists px. split; [|by apply elem_of_parents].
          apply list_elem_of_bind. exists py. split; [|by apply elem_of_parents].
          apply list_elem_of_fmap. exists py. split; [done|].
          apply list_elem_of_filter. split; [done|]. by apply elem_of_sibling_answers. }
        rewrite Hnil in Hin. by apply elem_of_nil in Hin.
    + split; [done|]. by intros [? _].
Qed.

End rules.

(** *** The fact base of the program *)

Lemma children_of_nobody a :
  a ∉ (fst <$> parent_facts) → children parent_facts a = [].
Proof.
  intros Ha. unfold children.
  destruct (filter (λ f, f.1 = a) parent_facts) as [|[p c] rest] eqn:Hf; [done|].
  exfalso. apply Ha.
  assert ((p, c) ∈ filter (λ f, f.1 = a) parent_facts) as Hin by (rewrite Hf; by left).
  apply list_elem_of_filter in Hin as [Hpa Hin]. simpl in Hpa. subst.
  apply list_elem_of_fmap. by exists (a, c).
Qed.

Lemma ancestor_answers_of_nobody depth a :
  a ∉ (fst <$> parent_facts) → ancestor_answers parent_facts depth a = [].
Proof.
  intros Ha. destruct depth as [|depth]; [done|].
  change (ancestor_answers parent_facts (S depth) a)
    with (children parent_facts a ++
          (children parent_facts a ≫= ancestor_answers parent_facts depth)).
  by rewrite (children_of_nobody a Ha).
Qed.

Lemma parents_of_the_family a :
  a ∈ (fst <$> parent_facts) →
  a ∈ ["john"; "anna"; "bob"; "diana"; "clara"; "eric"; "frank"; "helen"].
Proof.
  intros Hin. apply list_elem_of_fmap in Hin as ([p c] & -> & Hin).
  unfold parent_facts in Hin.
  repeat (apply elem_of_cons in Hin as [[= -> ->]|Hin]);
    try (by apply (bool_decide_unpack _)).
  by apply elem_of_nil in Hin.
Qed.

Lemma ancestor_answers_5 a :
  ancestor_answers parent_facts 5 a = ancestor_answers parent_facts 4 a.
Proof.
  destruct (decide (a ∈ (fst <$> parent_facts))) as [Hin|Hout].
  - apply parents_of_the_family in Hin.
    repeat (apply elem_of_cons in Hin as [->|Hin]);
      [by vm_compute..|by apply elem_of_nil in Hin].
  - by rewrite !ancestor_answers_of_nobody.
Qed.

Lemma ancestor_answers_stable k a :
  ancestor_answers parent_facts (4 + k) a = ancestor_answers parent_facts 4 a.
Proof.
  revert a. induction k as [|k IH]; intros a; [done|].
  replace (4 + S k)%nat with (S (4 + k)) by lia.
  rewrite <- ancestor_answers_5.
  change (ancestor_answers parent_facts (S (4 + k)) a)
    with (children parent_facts a ++
          (children parent_facts a ≫= ancestor_answers parent_facts (4 + k))).
  change (ancestor_answers parent_facts 5 a)
    with (children parent_facts a ++
          (children parent_facts a ≫= ancestor_answers parent_facts 4)).
  f_equal. by apply list_bind_ext.
Qed.

(** On the fact base of the program the ancestor search needs no more than
    four levels: deeper searches return the same answers, in the same order,
    and these are exactly the ancestors.  Nobody is their own ancestor. *)
Theorem family_ancestor_search_terminates a :
  (∀ depth, (4 ≤ depth)%nat →
     ancestor_answers parent_facts depth a = ancestor_answers parent_facts 4 a) ∧
  (∀ d, ancestor parent_facts a d ↔ d ∈ ancestor_answers parent_facts 4 a) ∧
  ¬ ancestor parent_facts a a.
Proof.
  assert (∀ depth, (4 ≤ depth)%nat →
     ancestor_answers parent_facts depth a = ancestor_answers parent_facts 4 a)
    as Hstable.
  { intros depth Hd. replace depth with (4 + (depth - 4))%nat by lia.
    apply ancestor_answers_stable. }
  assert (∀ d, ancestor parent_facts a d ↔ d ∈ ancestor_answers parent_facts 4 a)
    as Hiff.
  { intros d. split; [|apply ancestor_answers_sound].
    intros [depth Hd]%ancestor_answers_complete.
    destruct (decide (depth ≤ 4)%nat).
    - by eapply ancestor_answers_mono.
    - rewrite <- (Hstable depth) by lia. done. }
  split; [done|]. split; [done|].
  rewrite Hiff. destruct (decide (a ∈ (fst <$> parent_facts))) as [Hin|Hout].
  - apply parents_of_the_family in Hin.
    repeat (apply elem_of_cons in Hin as [->|Hin]);
      [by apply (bool_decide_unpack _)..|by apply elem_of_nil in Hin].
  - rewrite ancestor_answers_of_nobody by done. by intros ?%elem_of_nil.
Qed.

End KinshipFacts.

(** ** The two statistics calculators *)
Module StatsFacts.
Import CInt CIntFacts CType Process.

(** *** Tokens that do not parse (C7) *)

Lemma to_ints_first_bad pre tok post :
  Forall (λ t, is_Some (StatsML.int_of_string_opt t)) pre →
  StatsML.int_of_string_opt tok = None →
  StatsML.to_ints (pre ++ tok :: post) = inr tok.
Proof.
  intros Hpre Htok. induction Hpre as [|t pre [v Hv] _ IH]; simpl.
  - by rewrite Htok.
  - by rewrite Hv, IH.
Qed.

Lemma parse_all_first_bad pre tok post :
  Forall (λ t, is_Some (StatsC.parse_int_strict t)) pre →
  StatsC.parse_int_strict tok = None →
  StatsC.parse_all (pre ++ tok :: post) = inr tok.
Proof.
  intros Hpre Htok. induction Hpre as [|t pre [v Hv] _ IH]; simpl.
  - by rewrite Htok.
  - by rewrite Hv, IH.
Qed.

(** C7 (amended).  When the first token a calculator cannot parse is [tok],
    it prints nothing on the standard output, names [tok] on the error
    stream and exits non-zero: the functional one prints
    [Invalid integer: tok] and exits with 2, the array-based one prints
    [Invalid integer: 'tok'] and exits with [EXIT_FAILURE]. *)
Theorem invalid_token_is_reported fmt prog pre tok post :
  (Forall (λ t, is_Some (StatsML.int_of_string_opt t)) pre →
   StatsML.int_of_string_opt tok = None →
   StatsML.main fmt (prog :: pre ++ tok :: post) =
   {| stdout := ""; stderr := "Invalid integer: " +:+ tok +:+ nl;
      exit_code := 2 |}) ∧
  (Forall (λ t, is_Some (StatsC.parse_int_strict t)) pre →
   StatsC.parse_int_strict tok = None →
   StatsC.main fmt (prog :: pre ++ tok :: post) =
   {| stdout := ""; stderr := "Invalid integer: '" +:+ tok +:+ "'" +:+ nl;
      exit_code := EXIT_FAILURE |}).
Proof.
  split; intros Hpre Htok.
  - unfold StatsML.main, StatsML.parse_cli.
    rewrite (to_ints_first_bad pre tok post Hpre Htok). by destruct pre.
  - unfold StatsC.main.
    rewrite (parse_all_first_bad pre tok post Hpre Htok). by destruct pre.
Qed.

Lemma invalid_token_is_reported_witness :
  StatsML.main (λ _, "") ["stats"; "1"; "abc"; "3"] =
    {| stdout := ""; stderr := "Invalid integer: abc" +:+ nl; exit_code := 2 |} ∧
  StatsC.main (λ _, "") ["stats"; "1"; "abc"; "3"] =
    {| stdout := ""; stderr := "Invalid integer: 'abc'" +:+ nl; exit_code := 1 |}.
Proof.
  destruct (invalid_token_is_reported (λ _, "") "stats" ["1"] "abc" ["3"])
    as [Hml Hc].
  split.
  - apply Hml; [|by vm_compute].
    constructor; [|constructor]. exists 1%Z. by vm_compute.
  - apply Hc; [|by vm_compute].
    constructor; [|constructor]. exists 1%Z. by vm_compute.
Defined.

(** C7 as stated fails: the functional calculator does not put the token
    between quotes. *)
Lemma functional_message_has_no_quotes :
  stderr (StatsML.main (λ _, "") ["stats"; "abc"]) = "Invalid integer: abc" +:+ nl ∧
  stderr (StatsML.main (λ _, "") ["stats"; "abc"]) ≠ "Invalid integer: 'abc'" +:+ nl.
Proof. split; [by vm_compute|]. by vm_compute. Qed.

(** *** Tokens only one calculator accepts (C10) *)

(** C10.  The tokens [0x10] and [1_000] are integers for the functional
    calculator (16 and 1000), which goes on to print statistics and exit
    with 0; the array-based calculator refuses both with its invalid-integer
    message and [EXIT_FAILURE]. *)
Theorem parsers_accept_different_tokens fmt prog :
  StatsML.int_of_string_opt "0x10" = Some 16%Z ∧
  StatsML.int_of_string_opt "1_000" = Some 1000%Z ∧
  StatsC.parse_int_strict "0x10" = None ∧
  StatsC.parse_int_strict "1_000" = None ∧
  StatsML.main fmt [prog; "0x10"] =
    {| stdout := "Count : 1" +:+ nl +:+ "Mean  : " +:+ fmt 16%float +:+ nl +:+
                 "Median: " +:+ fmt 16%float +:+ nl +:+ "Mode  : [16]" +:+ nl;
       stderr := ""; exit_code := 0 |} ∧
  StatsC.main fmt [prog; "0x10"] =
    {| stdout := ""; stderr := "Invalid integer: '0x10'" +:+ nl;
       exit_code := EXIT_FAILURE |} ∧
  exit_code (StatsML.main fmt [prog; "1_000"]) = 0%Z ∧
  StatsC.main fmt [prog; "1_000"] =
    {| stdout := ""; stderr := "Invalid integer: '1_000'" +:+ nl;
       exit_code := EXIT_FAILURE |}.
Proof. repeat split; by vm_compute. Qed.

(** *** Where the two calculators agree *)

Lemma ml_fold_sum xs s c :
  Forall in_int xs →
  (Z.abs s + 2147483648 * Z.of_nat (length xs) ≤ 4611686018427387903)%Z →
  (0 ≤ c)%Z → (c + Z.of_nat (length xs) ≤ 4611686018427387903)%Z →
  fold_left (λ '(s, c) x, (StatsML.add s x, StatsML.add c 1)) xs (s, c) =
  ((s + StatsSpec.Zsum xs)%Z, (c + Z.of_nat (length xs))%Z).
Proof.
  intros Hxs. revert s c. induction Hxs as [|x xs Hx _ IH]; intros s c Hs Hc0 Hc.
  - simpl. f_equal; lia.
  - cbn [fold_left length StatsSpec.Zsum foldr] in *.
    unfold in_int, INT_MIN, INT_MAX in Hx.
    assert (StatsML.add s x = s + x)%Z as ->.
    { unfold StatsML.add, StatsML.wrap63. rewrite Z.mod_small; lia. }
    assert (StatsML.add c 1 = c + 1)%Z as ->.
    { unfold StatsML.add, StatsML.wrap63. rewrite Z.mod_small; lia. }
    rewrite IH by lia. fold (StatsSpec.Zsum xs). f_equal; lia.
Qed.

Lemma c_fold_sum xs s :
  Forall in_int xs →
  (Z.abs s + 2147483648 * Z.of_nat (length xs) ≤ 4611686018427387903)%Z →
  fold_left (λ sum x, StatsC.to_llong (sum + x)) xs s = (s + StatsSpec.Zsum xs)%Z.
Proof.
  intros Hxs. revert s. induction Hxs as [|x xs Hx _ IH]; intros s Hs.
  - simpl. lia.
  - cbn [fold_left length StatsSpec.Zsum foldr] in *.
    unfold in_int, INT_MIN, INT_MAX in Hx.
    assert (StatsC.to_llong (s + x) = s + x)%Z as ->.
    { unfold StatsC.to_llong. rewrite Z.mod_small; lia. }
    rewrite IH by lia. fold (StatsSpec.Zsum xs). lia.
Qed.

(** For a sample of fewer than 2^31 integers of the [int] range, the two
    calculators compute the same mean: the quotient, in binary64, of the
    exact sum by the count. *)
Theorem means_agree xs :
  xs ≠ [] → Forall in_int xs → (Z.of_nat (length xs) ≤ INT_MAX)%Z →
  StatsML.mean xs = StatsML.Val (StatsC.mean xs) ∧
  StatsC.mean xs =
    (Double.of_Z (StatsSpec.Zsum xs) / Double.of_Z (Z.of_nat (length xs)))%float.
Proof.
  intros Hne Hxs Hlen. unfold INT_MAX in Hlen.
  assert (StatsC.mean xs =
    (Double.of_Z (StatsSpec.Zsum xs) / Double.of_Z (Z.of_nat (length xs)))%float)
    as HC.
  { unfold StatsC.mean. rewrite c_fold_sum; [done|done|lia]. }
  split; [|done]. rewrite HC. unfold StatsML.mean.
  destruct xs as [|x xs']; [done|].
  rewrite ml_fold_sum; [done|done|lia..].
Qed.

Lemma means_agree_witness :
  StatsML.mean [1; 2; 2; 3; 4; 4; 4; 5]%Z =
    StatsML.Val (StatsC.mean [1; 2; 2; 3; 4; 4; 4; 5]%Z) ∧
  StatsC.mean [1; 2; 2; 3; 4; 4; 4; 5]%Z =
    (Double.of_Z 25 / Double.of_Z 8)%float.
Proof.
  apply (means_agree [1; 2; 2; 3; 4; 4; 4; 5]%Z).
  - done.
  - repeat constructor; by vm_compute.
  - by vm_compute.
Defined.

Lemma sort_length xs : length (merge_sort Z.le xs) = length xs.
Proof. by rewrite merge_sort_Permutation. Qed.

Lemma sort_elem x xs : x ∈ merge_sort Z.le xs ↔ x ∈ xs.
Proof. by rewrite merge_sort_Permutation. Qed.

(** When twice every element still fits an [int], the two calculators
    compute the same median, and the array-based one reads inside its
    array. *)
Theorem medians_agree xs :
  xs ≠ [] → Forall (λ x, in_int (2 * x)) xs →
  ∃ m, StatsML.median xs = StatsML.Val m ∧
       StatsC.median_sorted (StatsC.qsort xs) = Some m.
Proof.
  intros Hne Hxs. unfold StatsML.median, StatsC.median_sorted.
  unfold StatsML.sort, StatsC.qsort.
  pose proof (sort_length xs) as Hlen.
  assert (0 < length xs)%nat as Hpos by (destruct xs; simpl; [done|lia]).
  assert (∀ i a, merge_sort Z.le xs !! i = Some a → in_int (2 * a)) as Hin.
  { intros i a Ha. apply list_elem_of_lookup_2 in Ha. rewrite sort_elem in Ha.
    rewrite Forall_forall in Hxs. by apply Hxs. }
  set (s := merge_sort Z.le xs) in *.
  set (n := length s) in *.
  assert (Z.rem (Z.of_nat n) 2 = Z.of_nat (n `mod` 2))%Z as Hrem.
  { rewrite Z.rem_mod_nonneg by lia. by rewrite Nat2Z.inj_mod. }
  assert (Z.to_nat (Z.quot (Z.of_nat n) 2) = n / 2)%nat as Hq.
  { rewrite Z.quot_div_nonneg by lia.
    change 2%Z with (Z.of_nat 2). by rewrite <- Nat2Z.inj_div, Nat2Z.id. }
  assert (0 ≤ Z.quot (Z.of_nat n) 2)%Z as Hq0.
  { rewrite Z.quot_div_nonneg by lia. apply Z.div_pos; lia. }
  assert (n / 2 < n)%nat as Hhalf by (apply Nat.div_lt; lia).
  destruct (lookup_lt_is_Some_2 s (n / 2)) as [b Hb]; [lia|].
  destruct xs as [|x0 xs0]; [done|].
  rewrite Hrem. unfold StatsML.nth.
  destruct (Nat.eqb_spec (n `mod` 2) 1) as [Hodd|Heven].
  - rewrite Hodd. simpl (Z.of_nat 1 =? 1)%Z. cbv iota.
    destruct (Z.ltb_spec (Z.quot (Z.of_nat n) 2) 0); [lia|].
    rewrite Hq, Hb. simpl. by eexists.
  - assert (n `mod` 2 = 0)%nat as Hm.
    { pose proof (Nat.mod_upper_bound n 2). lia. }
    rewrite Hm. simpl (Z.of_nat 0 =? 1)%Z. cbv iota.
    assert (2 ≤ n)%nat as Hn2.
    { destruct n as [|[|n']]; [lia| |lia]. by simpl in Hm. }
    assert (1 ≤ n / 2)%nat as Hh1.
    { apply (Nat.div_le_mono 2 n 2) in Hn2; [|lia]. by simpl in Hn2. }
    destruct (Z.ltb_spec (Z.quot (Z.of_nat n) 2 - 1) 0); [lia|].
    destruct (Z.ltb_spec (Z.quot (Z.of_nat n) 2) 0); [lia|].
    replace (Z.to_nat (Z.quot (Z.of_nat n) 2 - 1)) with (n / 2 - 1)%nat by lia.
    rewrite Hq.
    destruct (lookup_lt_is_Some_2 s (n / 2 - 1)) as [a Ha]; [lia|].
    rewrite Ha, Hb.
    destruct n as [|n']; [lia|]. simpl.
    pose proof (Hin _ _ Ha) as Ha2. pose proof (Hin _ _ Hb) as Hb2.
    unfold in_int, INT_MIN, INT_MAX in *.
    assert (StatsML.add a b = a + b)%Z as ->.
    { unfold StatsML.add, StatsML.wrap63. rewrite Z.mod_small; lia. }
    assert (int_add a b = a + b)%Z as ->.
    { unfold int_add. apply to_int_id. unfold in_int, INT_MIN, INT_MAX. lia. }
    by eexists.
Qed.

Lemma medians_agree_witness :
  ∃ m, StatsML.median [1; 2; 3; 4]%Z = StatsML.Val m ∧
       StatsC.median_sorted (StatsC.qsort [1; 2; 3; 4]%Z) = Some m.
Proof.
  apply (medians_agree [1; 2; 3; 4]%Z).
  - done.
  - repeat constructor; by vm_compute.
Defined.

(** *** The modes *)

Section modes.
Import StatsSpec.

Lemma occurrences_app x l k :
  occurrences x (l ++ k) = (occurrences x l + occurrences x k)%nat.
Proof. unfold occurrences. by rewrite filter_app, length_app. Qed.

Lemma occurrences_replicate x c v :
  occurrences x (replicate c v) = if decide (v = x) then c else 0%nat.
Proof.
  unfold occurrences. induction c as [|c IH]; simpl; [by case_decide|].
  rewrite filter_cons. case_decide; simpl; by rewrite IH.
Qed.

Lemma occurrences_zero x l : occurrences x l = 0%nat ↔ x ∉ l.
Proof.
  unfold occurrences. induction l as [|y l IH]; simpl.
  - split; [by intros _ ?%elem_of_nil|done].
  - rewrite filter_cons, not_elem_of_cons. case_decide; simpl; [|rewrite IH].
    + split; [done|]. by intros [? _].
    + split; [by intros ?; split; [congruence|]|by intros [_ ?]].
Qed.

Lemma occurrences_pos x l : (0 < occurrences x l)%nat → x ∈ l.
Proof.
  intros Hpos. destruct (decide (x ∈ l)) as [|Hnot]; [done|].
  apply occurrences_zero in Hnot. lia.
Qed.

Lemma occurrences_perm x l k : l ≡ₚ k → occurrences x l = occurrences x k.
Proof. unfold occurrences. by intros ->. Qed.

Lemma occurrences_length x l : (occurrences x l ≤ length l)%nat.
Proof. unfold occurrences. apply length_filter. Qed.

Lemma sorted_lookup_le l i j x y :
  StronglySorted Z.le l → (i ≤ j)%nat →
  l !! i = Some x → l !! j = Some y → (x ≤ y)%Z.
Proof.
  intros Hl. revert i j. induction Hl as [|a l Hl IH Ha]; intros i j Hij; [done|].
  destruct i as [|i], j as [|j]; simpl; try lia.
  - intros [= ->] [= ->]. lia.
  - intros [= ->] Hy. rewrite Forall_forall in Ha.
    apply Ha. by eapply list_elem_of_lookup_2.
  - apply IH. lia.
Qed.

(** The inner loop stops at the end of the run it started in. *)
Lemma run_length_spec fuel l i v count :
  (∀ j, (i ≤ j < i + count)%nat → l !! j = Some v) →
  (length l ≤ i + count + fuel)%nat →
  (count ≤ StatsC.run_length fuel l i v count)%nat ∧
  (∀ j, (i ≤ j < i + StatsC.run_length fuel l i v count)%nat → l !! j = Some v) ∧
  l !! (i + StatsC.run_length fuel l i v count)%nat ≠ Some v.
Proof.
  revert count. induction fuel as [|fuel IH]; intros count Hrun Hlen; simpl.
  - split; [done|]. split; [done|].
    rewrite lookup_ge_None_2 by lia. done.
  - destruct (l !! (i + count)%nat) as [x|] eqn:Hx.
    + case_bool_decide as Hxv.
      * subst x. destruct (IH (S count)) as (Hle & Hall & Hstop).
        -- intros j Hj. destruct (decide (j = i + count)%nat) as [->|]; [done|].
           apply Hrun. lia.
        -- lia.
        -- split; [lia|done].
      * split; [done|]. split; [done|]. rewrite Hx. by intros [= ->].
    + split; [done|]. split; [done|]. by rewrite Hx.
Qed.

Lemma take_run (l : list Z) i c v :
  (∀ j, (i ≤ j < i + c)%nat → l !! j = Some v) →
  take (i + c) l = take i l ++ replicate c v.
Proof.
  intros Hrun. rewrite <- take_take_drop. f_equal.
  apply list_eq. intros j. destruct (decide (j < c)%nat) as [Hj|Hj].
  - rewrite lookup_take_lt by done. rewrite lookup_drop, lookup_replicate_2 by done.
    apply Hrun. lia.
  - rewrite lookup_take_ge by lia. symmetry. apply lookup_replicate_None. lia.
Qed.

Lemma modes_step_inv l st v :
  StronglySorted Z.le l → (Z.of_nat (length l) ≤ INT_MAX)%Z →
  modes_inv l st → l !! StatsC.pos st = Some v →
  modes_inv l (StatsC.modes_step l st v) ∧
  (StatsC.pos st < StatsC.pos (StatsC.modes_step l st v))%nat.
Proof.
  intros Hsorted Hmax [Hpos Hbound (f & Hf & Hfle & Hocc & Hmem & Hss & Hne) Hcount Hcap] Hv.
  set (i := StatsC.pos st) in *.
  destruct (run_length_spec (length l) l i v 1) as (Hc1 & Hrun & Hstop).
  { intros j Hj. by replace j with i by lia. }
  { lia. }
  set (c := StatsC.run_length (length l) l i v 1) in *.
  assert (i + c ≤ length l)%nat as Hic.
  { destruct (decide (i + c ≤ length l)%nat); [done|].
    assert (is_Some (l !! (i + c - 1)%nat)) as Hs by (rewrite Hrun; [done|lia]).
    apply lookup_lt_is_Some_1 in Hs. lia. }
  assert (to_int (Z.of_nat c) = Z.of_nat c) as Hcast.
  { apply to_int_id. unfold in_int, INT_MIN, INT_MAX in *. lia. }
  pose proof (take_run l i c v Hrun) as Htake.
  assert (occurrences v (take i l) = 0%nat) as Hv0.
  { apply occurrences_zero. intros Hin.
    apply list_elem_of_lookup in Hin as [j Hj].
    pose proof (lookup_lt_Some _ _ _ Hj) as Hjl. rewrite length_take in Hjl.
    rewrite lookup_take_lt in Hj by lia.
    pose proof (Hbound j i v v ltac:(lia) ltac:(lia) Hj Hv). lia. }
  assert (∀ x, occurrences x (take (i + c) l) =
            (occurrences x (take i l) + if decide (v = x) then c else 0)%nat) as Hoccs.
  { intros x. by rewrite Htake, occurrences_app, occurrences_replicate. }
  assert (∀ x, x ∈ take (i + c) l ↔ x ∈ take i l ∨ x = v) as Hmems.
  { intros x. rewrite Htake, elem_of_app. split; intros [?|Hx]; auto.
    - right. by apply elem_of_replicate in Hx as [? _].
    - right. apply elem_of_replicate. split; [done|lia]. }
  assert (∀ x, x ∈ take i l → (x < v)%Z) as Hbelow.
  { intros x Hin. apply list_elem_of_lookup in Hin as [j Hj].
    pose proof (lookup_lt_Some _ _ _ Hj) as Hjl. rewrite length_take in Hjl.
    rewrite lookup_take_lt in Hj by lia.
    apply (Hbound j i x v); [lia|lia|done|done]. }
  assert (∀ j k x y, (j < i + c)%nat → (i + c ≤ k)%nat →
            l !! j = Some x → l !! k = Some y → (x < y)%Z) as Hbound'.
  { intros j k x y Hj Hk Hx Hy. destruct (decide (j < i)%nat).
    - apply (Hbound j k x y); [lia|lia|done|done].
    - rewrite Hrun in Hx by lia. injection Hx as <-.
      destruct (l !! (i + c)%nat) as [z|] eqn:Hz.
      + pose proof (sorted_lookup_le l i (i + c) v z Hsorted ltac:(lia) Hv Hz).
        pose proof (sorted_lookup_le l (i + c) k z y Hsorted ltac:(lia) Hz Hy).
        assert (z ≠ v) by (intros ->; by apply Hstop). lia.
      + apply lookup_ge_None_1 in Hz. apply lookup_lt_Some in Hy. lia. }
  unfold StatsC.modes_step. fold i. fold c. rewrite Hcast, Hf.
  destruct (Z.ltb_spec (Z.of_nat f) (Z.of_nat c)) as [Hlt|Hge].
  - (* a longer run: the buffer restarts with [v] *)
    split; [|simpl; lia]. split; simpl.
    + done.
    + done.
    + exists c. split; [done|]. split; [lia|].
      assert (take 1 (<[0%nat:=v]> (StatsC.modes_out st)) = [v]) as ->.
      { destruct (StatsC.modes_out st); simpl in *; [lia|done]. }
      split; [|split; [|split]].
      * intros x. rewrite Hoccs. specialize (Hocc x).
        case_decide; subst; lia.
      * intros x. rewrite list_elem_of_singleton, Hmems, Hoccs. split.
        -- intros ->. split; [by right|]. rewrite Hv0, decide_True by done. lia.
        -- intros [_ Hx]. specialize (Hocc x). case_decide; [done|lia].
      * repeat constructor.
      * done.
    + lia.
    + by rewrite length_insert.
  - destruct (Z.eqb_spec (Z.of_nat c) (Z.of_nat f)) as [Heq|Hneq].
    + (* a run as long as the longest: [v] is appended *)
      assert (c = f) as Hcf by lia.
      split; [|simpl; lia]. split; simpl.
      * done.
      * done.
      * exists f. split; [done|]. split; [lia|].
        assert (take (S (StatsC.modes_count st))
                  (<[StatsC.modes_count st:=v]> (StatsC.modes_out st)) =
                take (StatsC.modes_count st) (StatsC.modes_out st) ++ [v]) as ->.
        { rewrite (take_S_r _ _ v).
          - by rewrite take_insert_ge.
          - apply list_lookup_insert_eq. lia. }
        split; [|split; [|split]].
        -- intros x. rewrite Hoccs. specialize (Hocc x).
           case_decide; subst; lia.
        -- intros x. rewrite elem_of_app, list_elem_of_singleton, Hmems, Hoccs, Hmem.
           split.
           ++ intros [[Hin Hx]| ->].
              ** split; [by left|]. rewrite decide_False; [lia|].
                 intros <-. lia.
              ** split; [by right|]. rewrite Hv0, decide_True by done. lia.
           ++ intros [_ Hx]. case_decide as Hvx; [by right|left].
              split; [|lia]. apply occurrences_pos. lia.
        -- apply StronglySorted_app_2; [|done|repeat constructor].
           intros x1 x2 Hx1 ->%list_elem_of_singleton.
           apply Hbelow. by apply Hmem in Hx1 as [? _].
        -- intros _ Hnil. by apply app_eq_nil in Hnil as [_ ?].
      * lia.
      * by rewrite length_insert.
    + (* a shorter run: nothing changes *)
      assert (c < f)%nat as Hcf by lia.
      split; [|simpl; lia]. split; simpl.
      * done.
      * done.
      * exists f. split; [done|]. split; [lia|].
        split; [|split; [|split]].
        -- intros x. rewrite Hoccs. specialize (Hocc x).
           case_decide; subst; lia.
        -- intros x. rewrite Hmems, Hoccs, Hmem. split.
           ++ intros [Hin Hx]. split; [by left|]. rewrite decide_False; [lia|].
              intros <-. lia.
           ++ intros [_ Hx]. case_decide as Hvx; [subst; lia|].
              split; [|lia]. apply occurrences_pos. lia.
        -- done.
        -- intros _. apply Hne. intros Hnil.
           assert (length (take i l) = 0%nat) as Hl0 by (by rewrite Hnil).
           rewrite length_take in Hl0. lia.
      * lia.
      * done.
Qed.

Lemma modes_loop_inv fuel l st :
  StronglySorted Z.le l → (Z.of_nat (length l) ≤ INT_MAX)%Z →
  modes_inv l st → (length l ≤ StatsC.pos st + fuel)%nat →
  modes_inv l (StatsC.modes_loop fuel l st) ∧
  StatsC.pos (StatsC.modes_loop fuel l st) = length l.
Proof.
  intros Hsorted Hmax. revert st.
  induction fuel as [|fuel IH]; intros st Hinv Hfuel; simpl.
  - split; [done|]. pose proof (mi_pos _ _ Hinv). lia.
  - destruct (l !! StatsC.pos st) as [v|] eqn:Hv.
    + destruct (modes_step_inv l st v Hsorted Hmax Hinv Hv) as [Hinv' Hlt].
      apply IH; [done|lia].
    + split; [done|]. apply lookup_ge_None_1 in Hv.
      pose proof (mi_pos _ _ Hinv). lia.
Qed.

Lemma modes_of_nil : modes_of [] 0 [].
Proof.
  split; [done|]. split; [|split; [constructor|done]].
  intros x. split; [by intros ?%elem_of_nil|by intros [?%elem_of_nil _]].
Qed.

Lemma modes_of_perm l k f ms : l ≡ₚ k → modes_of l f ms → modes_of k f ms.
Proof.
  intros Hperm (Hocc & Hmem & Hss & Hne).
  split; [|split; [|split]].
  - intros x. by rewrite <- (occurrences_perm x l k).
  - intros x. by rewrite <- (occurrences_perm x l k), <- Hperm.
  - done.
  - intros Hk. apply Hne. intros ->. by apply Permutation_nil_l in Hperm.
Qed.

Lemma strictly_sorted_NoDup (l : list Z) : StronglySorted Z.lt l → NoDup l.
Proof.
  induction 1 as [|x l _ IH Hx]; constructor; [|done].
  intros Hin. rewrite Forall_forall in Hx. specialize (Hx x Hin). lia.
Qed.

Lemma sorted_NoDup_strictly (l : list Z) :
  StronglySorted Z.le l → NoDup l → StronglySorted Z.lt l.
Proof.
  induction 1 as [|x l _ IH Hx]; intros Hnd; [constructor|].
  apply NoDup_cons in Hnd as [Hnot Hnd]. constructor; [by apply IH|].
  rewrite Forall_forall in *. intros y Hy. specialize (Hx y Hy).
  assert (x ≠ y) by (by intros ->). lia.
Qed.

(** The longest run and the list of its values are determined by the data. *)
Lemma modes_of_unique l f1 ms1 f2 ms2 :
  l ≠ [] → modes_of l f1 ms1 → modes_of l f2 ms2 → f1 = f2 ∧ ms1 = ms2.
Proof.
  intros Hl (Hocc1 & Hmem1 & Hss1 & Hne1) (Hocc2 & Hmem2 & Hss2 & Hne2).
  assert (f1 = f2) as <-.
  { destruct ms1 as [|x1 ms1]; [by destruct (Hne1 Hl)|].
    destruct ms2 as [|x2 ms2]; [by destruct (Hne2 Hl)|].
    destruct (proj1 (Hmem1 x1)) as [_ H1]; [left|].
    destruct (proj1 (Hmem2 x2)) as [_ H2]; [left|].
    specialize (Hocc1 x2). specialize (Hocc2 x1). lia. }
  split; [done|].
  apply (StronglySorted_unique_strong Z.lt); [intros; lia|done|done|].
  apply NoDup_Permutation; [by apply strictly_sorted_NoDup..|].
  intros x. by rewrite Hmem1, Hmem2.
Qed.

(** What the C function returns on a sorted array. *)
Lemma modes_from_sorted_spec l buf :
  StronglySorted Z.le l → (Z.of_nat (length l) ≤ INT_MAX)%Z →
  (length l ≤ length buf)%nat →
  ∃ f out count,
    StatsC.modes_from_sorted l buf = (out, count, Z.of_nat f) ∧
    modes_of l f (take count out) ∧
    (count ≤ length l)%nat ∧ (length l ≤ length out)%nat.
Proof.
  intros Hsorted Hmax Hcap. destruct l as [|a l'] eqn:El.
  - exists 0%nat, buf, 0%nat. split; [done|]. split; [|done].
    rewrite take_0. apply modes_of_nil.
  - rewrite <- El in *. unfold StatsC.modes_from_sorted.
    set (st0 := {| StatsC.pos := 0; StatsC.maxf := 0;
                   StatsC.modes_out := buf; StatsC.modes_count := 0 |}).
    destruct (modes_loop_inv (length l) l st0 Hsorted Hmax) as [Hinv Hend].
    { split; simpl; [lia|intros; lia| |lia|done].
      exists 0%nat. split; [done|]. split; [done|apply modes_of_nil]. }
    { simpl. lia. }
    destruct Hinv as [_ _ (f & Hf & _ & Hmodes) Hcount Hcap'].
    rewrite Hend in *. rewrite firstn_all in Hmodes.
    exists f, (StatsC.modes_out (StatsC.modes_loop (length l) l st0)),
      (StatsC.modes_count (StatsC.modes_loop (length l) l st0)).
    rewrite El at 1. rewrite Hf. done.
Qed.

Lemma freq_map_lookup xs x :
  (Z.of_nat (length xs) ≤ INT_MAX)%Z →
  StatsML.freq_map xs !! x =
    if decide (occurrences x xs = 0%nat) then None
    else Some (Z.of_nat (occurrences x xs)).
Proof.
  unfold StatsML.freq_map. induction xs as [|y xs IH] using rev_ind; intros Hlen.
  - done.
  - rewrite length_app in Hlen. simpl in Hlen.
    rewrite fold_left_app. cbn [fold_left]. unfold StatsML.bump at 1.
    rewrite occurrences_app.
    change (occurrences x [y]) with (occurrences x (replicate 1 y)).
    rewrite occurrences_replicate.
    pose proof (occurrences_length y xs) as Hle.
    destruct (decide (y = x)) as [->|Hne].
    + rewrite lookup_insert_eq, IH by lia.
      rewrite (decide_False (P := (_ + 1 = 0)%nat)) by lia.
      case_decide as H0.
      * f_equal. lia.
      * f_equal. unfold StatsML.add, StatsML.wrap63, INT_MAX in *.
        rewrite Z.mod_small; lia.
    + rewrite lookup_insert_ne, IH by (done || lia).
      by rewrite Nat.add_0_r.
Qed.

Lemma max_fold_spec (m : gmap Z Z) :
  let r := map_fold (λ _ c acc, Z.max c acc) 0%Z m in
  (∀ k c, m !! k = Some c → (c ≤ r)%Z) ∧
  (r = 0%Z ∨ ∃ k, m !! k = Some r) ∧ (0 ≤ r)%Z.
Proof.
  apply (map_fold_weak_ind (λ r m,
    (∀ k c, m !! k = Some c → (c ≤ r)%Z) ∧
    (r = 0%Z ∨ ∃ k, m !! k = Some r) ∧ (0 ≤ r)%Z)).
  - split; [|split; [by left|done]]. intros k c. by rewrite lookup_empty.
  - intros i x m' r Hi (Hle & Hex & H0). split; [|split].
    + intros k c. destruct (decide (k = i)) as [->|Hki].
      * rewrite lookup_insert_eq. intros [= ->]. lia.
      * rewrite lookup_insert_ne by done. intros Hk%Hle. lia.
    + destruct (Z.max_spec x r) as [[Hlt ->]|[Hge ->]].
      * destruct Hex as [->|[k Hk]]; [by left|right].
        exists k. rewrite lookup_insert_ne; [done|]. intros ->. congruence.
      * right. exists i. by rewrite lookup_insert_eq.
    + lia.
Qed.

(** What the OCaml function returns. *)
Lemma ml_modes_spec xs :
  xs ≠ [] → (Z.of_nat (length xs) ≤ INT_MAX)%Z →
  ∃ f ms, StatsML.modes xs = StatsML.Val ms ∧ modes_of xs f ms.
Proof.
  intros Hne Hlen. unfold StatsML.modes.
  destruct xs as [|x0 xs0] eqn:Exs; [done|]. rewrite <- Exs in *. clear Hne.
  set (m := StatsML.freq_map xs).
  destruct (max_fold_spec m) as (Hle & Hex & H0).
  set (r := map_fold (λ _ c acc, Z.max c acc) 0%Z m) in *.
  assert (∀ x, m !! x = if decide (occurrences x xs = 0%nat) then None
                        else Some (Z.of_nat (occurrences x xs))) as Hm.
  { intros x. by apply freq_map_lookup. }
  assert (0 < occurrences x0 xs)%nat as Hx0.
  { destruct (decide (occurrences x0 xs = 0%nat)) as [Hz|]; [|lia].
    apply occurrences_zero in Hz. destruct Hz. rewrite Exs. left. }
  assert (1 ≤ r)%Z as Hr.
  { apply Z.le_trans with (Z.of_nat (occurrences x0 xs)); [lia|].
    apply (Hle x0). rewrite Hm. by rewrite decide_False by lia. }
  destruct Hex as [?|[k Hk]]; [lia|].
  rewrite Hm in Hk. case_decide as Hk0; [done|]. injection Hk as Hk.
  exists (occurrences k xs), (StatsML.sort
    (filter (λ vc : Z * Z, vc.2 = r) (map_to_list m)).*1).
  split; [done|].
  assert (∀ x, x ∈ (filter (λ vc : Z * Z, vc.2 = r) (map_to_list m)).*1 ↔
               x ∈ xs ∧ occurrences x xs = occurrences k xs) as Hmem.
  { intros x. rewrite list_elem_of_fmap. split.
    - intros ([x' c] & -> & Hin). apply list_elem_of_filter in Hin as [Hc Hin].
      simpl in *. apply elem_of_map_to_list in Hin. rewrite Hm in Hin.
      case_decide as Hz; [done|]. injection Hin as Hin.
      split; [apply occurrences_pos; lia|lia].
    - intros [Hin Hocc]. exists (x, r). split; [done|].
      apply list_elem_of_filter. split; [done|].
      apply elem_of_map_to_list. rewrite Hm, decide_False by lia.
      f_equal. lia. }
  unfold StatsML.sort. split; [|split; [|split]].
  - intros x. destruct (decide (occurrences x xs = 0%nat)) as [->|Hz]; [lia|].
    specialize (Hle x (Z.of_nat (occurrences x xs))).
    rewrite Hm, decide_False in Hle by done. specialize (Hle eq_refl). lia.
  - intros x. by rewrite merge_sort_Permutation.
  - apply sorted_NoDup_strictly.
    + apply (StronglySorted_merge_sort Z.le).
    + rewrite merge_sort_Permutation.
      eapply sublist_NoDup; [apply (NoDup_fst_map_to_list m)|].
      apply fmap_sublist, sublist_filter.
  - intros _ Hnil.
    assert (k ∈ merge_sort Z.le
              (filter (λ vc : Z * Z, vc.2 = r) (map_to_list m)).*1) as Hin.
    { rewrite merge_sort_Permutation. apply Hmem.
      split; [apply occurrences_pos; lia|done]. }
    rewrite Hnil in Hin. by apply elem_of_nil in Hin.
Qed.

(** Both calculators report the same modes and the same highest
    frequency.  For a non-empty list of at most [INT_MAX] numbers, and a
    buffer with room for them, [modes_from_sorted] on the sorted copy
    returns as many modes as the OCaml [modes] lists, writes them in the
    same increasing order at the front of the buffer, and reports as
    [maxfreq] the number of times each of them occurs, which no other
    value exceeds. *)
Theorem modes_agree xs buf :
  xs ≠ [] → (Z.of_nat (length xs) ≤ INT_MAX)%Z →
  (length xs ≤ length buf)%nat →
  ∃ f ms out,
    modes_of xs f ms ∧
    StatsML.modes xs = StatsML.Val ms ∧
    StatsC.modes_from_sorted (StatsC.qsort xs) buf =
      (out, length ms, Z.of_nat f) ∧
    take (length ms) out = ms.
Proof.
  intros Hne Hlen Hcap.
  destruct (ml_modes_spec xs Hne Hlen) as (f & ms & Hml & Hmodes).
  pose proof (merge_sort_Permutation Z.le xs) as Hperm.
  destruct (modes_from_sorted_spec (StatsC.qsort xs) buf)
    as (f' & out & count & Hc & Hmodes' & Hcount & Hout).
  { apply (StronglySorted_merge_sort Z.le). }
  { unfold StatsC.qsort. by rewrite Hperm. }
  { unfold StatsC.qsort. by rewrite Hperm. }
  apply (modes_of_perm _ xs) in Hmodes'; [|done].
  destruct (modes_of_unique xs f ms f' (take count out) Hne Hmodes Hmodes')
    as [<- Hms].
  assert (length ms = count) as Hcnt.
  { rewrite Hms, length_take. lia. }
  exists f, ms, out. rewrite Hcnt. done.
Qed.

Lemma modes_agree_witness :
  ∃ f ms out,
    modes_of [1; 2; 2; 3; 4; 4; 4; 5]%Z f ms ∧
    StatsML.modes [1; 2; 2; 3; 4; 4; 4; 5]%Z = StatsML.Val ms ∧
    StatsC.modes_from_sorted (StatsC.qsort [1; 2; 2; 3; 4; 4; 4; 5]%Z)
      (replicate 8 0%Z) = (out, length ms, Z.of_nat f) ∧
    take (length ms) out = ms.
Proof.
  apply (modes_agree [1; 2; 2; 3; 4; 4; 4; 5]%Z (replicate 8 0%Z)).
  - done.
  - unfold INT_MAX. simpl. lia.
  - simpl. lia.
Defined.

End modes.

(** *** The exit status of the two programs *)

Lemma c_median_total l : l ≠ [] → is_Some (StatsC.median_sorted l).
Proof.
  intros Hne. unfold StatsC.median_sorted.
  assert (0 < length l)%nat as Hpos by (destruct l; simpl; [done|lia]).
  set (n := length l) in *.
  assert (n / 2 < n)%nat as Hhalf by (apply Nat.div_lt; lia).
  destruct (lookup_lt_is_Some_2 l (n / 2)) as [b Hb]; [done|].
  destruct (lookup_lt_is_Some_2 l (n / 2 - 1)) as [a Ha]; [lia|].
  rewrite Hb, Ha. destruct (n `mod` 2 =? 1)%nat; [done|].
  destruct n; [lia|done].
Qed.

Lemma ml_median_total xs : xs ≠ [] → ∃ m, StatsML.median xs = StatsML.Val m.
Proof.
  intros Hne. unfold StatsML.median, StatsML.sort.
  pose proof (sort_length xs) as Hlen.
  assert (0 < length xs)%nat as Hpos by (destruct xs; simpl; [done|lia]).
  destruct xs as [|x0 xs0] eqn:Exs; [done|]. rewrite <- Exs in *.
  set (s := merge_sort Z.le xs) in *.
  set (n := length s) in *.
  assert (Z.rem (Z.of_nat n) 2 = Z.of_nat (n `mod` 2))%Z as Hrem.
  { rewrite Z.rem_mod_nonneg by lia. by rewrite Nat2Z.inj_mod. }
  assert (Z.to_nat (Z.quot (Z.of_nat n) 2) = n / 2)%nat as Hq.
  { rewrite Z.quot_div_nonneg by lia.
    change 2%Z with (Z.of_nat 2). by rewrite <- Nat2Z.inj_div, Nat2Z.id. }
  assert (0 ≤ Z.quot (Z.of_nat n) 2)%Z as Hq0.
  { rewrite Z.quot_div_nonneg by lia. apply Z.div_pos; lia. }
  assert (n / 2 < n)%nat as Hhalf by (apply Nat.div_lt; lia).
  destruct (lookup_lt_is_Some_2 s (n / 2)) as [b Hb]; [lia|].
  assert (StatsML.nth s (Z.quot (Z.of_nat n) 2) = StatsML.Val b) as ->.
  { unfold StatsML.nth. rewrite (proj2 (Z.ltb_ge _ _)) by done. by rewrite Hq, Hb. }
  destruct (Z.eqb_spec (Z.rem (Z.of_nat n) 2) 1) as [Hodd|Heven]; [by eexists|].
  assert (n `mod` 2 = 0)%nat as Hmod.
  { pose proof (Nat.mod_upper_bound n 2). lia. }
  assert (1 ≤ n / 2)%nat as Hone.
  { pose proof (Nat.div_mod_eq n 2). lia. }
  destruct (lookup_lt_is_Some_2 s (n / 2 - 1)) as [a Ha]; [lia|].
  assert (StatsML.nth s (Z.quot (Z.of_nat n) 2 - 1) = StatsML.Val a) as ->.
  { unfold StatsML.nth.
    assert (Z.quot (Z.of_nat n) 2 = Z.of_nat (n / 2)) as -> by lia.
    rewrite (proj2 (Z.ltb_ge _ _)) by lia.
    replace (Z.to_nat (Z.of_nat (n / 2) - 1)) with (n / 2 - 1)%nat by lia.
    by rewrite Ha. }
  by eexists.
Qed.

Lemma describe_total fmt xs :
  xs ≠ [] → ∃ text, StatsML.describe fmt xs = StatsML.Val text.
Proof.
  intros Hne. unfold StatsML.describe.
  destruct (ml_median_total xs Hne) as [med ->].
  destruct xs as [|x0 xs0] eqn:Exs; [done|]. cbn [StatsML.mean StatsML.modes].
  destruct (fold_left _ _ _) as [sum count]. by eexists.
Qed.

Lemma to_ints_cases args :
  (∃ data, StatsML.to_ints args = inl data ∧
           Forall2 (λ s v, StatsML.int_of_string_opt s = Some v) args data) ∨
  (∃ bad, StatsML.to_ints args = inr bad ∧ bad ∈ args ∧
          StatsML.int_of_string_opt bad = None).
Proof.
  induction args as [|s args IH]; simpl; [left; by eexists|].
  destruct (StatsML.int_of_string_opt s) as [v|] eqn:Hs.
  - destruct IH as [(data & -> & Hall)|(bad & -> & Hin & Hbad)].
    + left. eexists. split; [done|]. by constructor.
    + right. exists bad. split; [done|]. split; [by right|done].
  - right. exists s. split; [done|]. split; [by left|done].
Qed.

Lemma parse_all_cases args :
  (∃ a, StatsC.parse_all args = inl a ∧
        Forall2 (λ s v, StatsC.parse_int_strict s = Some v) args a) ∨
  (∃ bad, StatsC.parse_all args = inr bad ∧ bad ∈ args ∧
          StatsC.parse_int_strict bad = None).
Proof.
  induction args as [|s args IH]; simpl; [left; by eexists|].
  destruct (StatsC.parse_int_strict s) as [v|] eqn:Hs.
  - destruct IH as [(data & -> & Hall)|(bad & -> & Hin & Hbad)].
    + left. eexists. split; [done|]. by constructor.
    + right. exists bad. split; [done|]. split; [by right|done].
  - right. exists s. split; [done|]. split; [by left|done].
Qed.

(** The functional calculator never fails on data.  Given at least one
    argument, either [int_of_string_opt] accepts every argument and the
    program exits with status 0 and an empty error stream, so that no
    exception of [mean], [median], [List.nth] or [modes] reaches the top
    level; or it refuses one, and the program exits with status 2, names
    that argument on the error stream and prints nothing on the standard
    output. *)
Theorem functional_exit_status fmt prog args :
  args ≠ [] →
  (exit_code (StatsML.main fmt (prog :: args)) = 0%Z ∧
   stderr (StatsML.main fmt (prog :: args)) = "" ∧
   Forall (λ s, is_Some (StatsML.int_of_string_opt s)) args) ∨
  (exit_code (StatsML.main fmt (prog :: args)) = 2%Z ∧
   stdout (StatsML.main fmt (prog :: args)) = "" ∧
   ∃ bad, bad ∈ args ∧ StatsML.int_of_string_opt bad = None ∧
          stderr (StatsML.main fmt (prog :: args)) =
            "Invalid integer: " +:+ bad +:+ nl).
Proof.
  intros Hne. unfold StatsML.main, StatsML.parse_cli.
  destruct args as [|s args]; [done|].
  destruct (to_ints_cases (s :: args)) as [(data & -> & Hall)|(bad & -> & Hin & Hbad)].
  - left. destruct (describe_total fmt data) as [text ->].
    { intros ->. by apply Forall2_nil_inv_r in Hall. }
    cbn. split; [done|]. split; [done|].
    clear Hne. induction Hall; constructor; [by eexists|done].
  - right. cbn. split; [done|]. split; [done|]. by exists bad.
Qed.

Lemma functional_exit_status_witness :
  (exit_code (StatsML.main (λ _, "") ["stats"; "1"; "x"]) = 0%Z ∧
   stderr (StatsML.main (λ _, "") ["stats"; "1"; "x"]) = "" ∧
   Forall (λ s, is_Some (StatsML.int_of_string_opt s)) ["1"; "x"]) ∨
  (exit_code (StatsML.main (λ _, "") ["stats"; "1"; "x"]) = 2%Z ∧
   stdout (StatsML.main (λ _, "") ["stats"; "1"; "x"]) = "" ∧
   ∃ bad, bad ∈ ["1"; "x"] ∧ StatsML.int_of_string_opt bad = None ∧
          stderr (StatsML.main (λ _, "") ["stats"; "1"; "x"]) =
            "Invalid integer: " +:+ bad +:+ nl).
Proof. by apply (functional_exit_status (λ _, "") "stats" ["1"; "x"]). Defined.

(** The exit status of the array-based calculator; its median never reads
    outside the array.  Given at
    least one argument, either [parse_int_strict] accepts every argument,
    the numbers stored all fit an [int], one per argument, and the program
    exits with [EXIT_SUCCESS] and an empty error stream; or it refuses one,
    and the program exits with [EXIT_FAILURE], names that argument between
    quotes on the error stream and prints nothing on the standard
    output. *)
Theorem imperative_exit_status fmt prog args :
  args ≠ [] →
  (exit_code (StatsC.main fmt (prog :: args)) = EXIT_SUCCESS ∧
   stderr (StatsC.main fmt (prog :: args)) = "" ∧
   ∃ a, StatsC.parse_all args = inl a ∧ length a = length args ∧
        Forall in_int a) ∨
  (exit_code (StatsC.main fmt (prog :: args)) = EXIT_FAILURE ∧
   stdout (StatsC.main fmt (prog :: args)) = "" ∧
   ∃ bad, bad ∈ args ∧ StatsC.parse_int_strict bad = None ∧
          stderr (StatsC.main fmt (prog :: args)) =
            "Invalid integer: '" +:+ bad +:+ "'" +:+ nl).
Proof.
  intros Hne. unfold StatsC.main.
  destruct args as [|s args]; [done|].
  destruct (parse_all_cases (s :: args)) as [(a & -> & Hall)|(bad & -> & Hin & Hbad)].
  - left.
    destruct (StatsC.modes_from_sorted _ _) as [[modes modes_count] maxfreq].
    destruct (c_median_total (StatsC.qsort a)) as [med ->].
    { intros Hnil. apply (f_equal length) in Hnil.
      unfold StatsC.qsort in Hnil. rewrite sort_length in Hnil.
      apply Forall2_length in Hall. simpl in *. lia. }
    cbn. split; [done|]. split; [done|]. exists a. split; [done|].
    split; [apply Forall2_length in Hall; simpl in *; lia|].
    clear Hne. induction Hall as [|t v ts vs Htv _ IH]; constructor; [|done].
    unfold StatsC.parse_int_strict in Htv.
    destruct (_ || _ || _); [done|].
    destruct (Z.ltb_spec (StatsC.value (StatsC.strtol t)) INT_MIN); [done|].
    destruct (Z.ltb_spec INT_MAX (StatsC.value (StatsC.strtol t))); [done|].
    injection Htv as <-. apply to_int_range.
  - right. cbn. split; [done|]. split; [done|]. by exists bad.
Qed.

Lemma imperative_exit_status_witness :
  (exit_code (StatsC.main (λ _, "") ["stats"; "1"; "2"]) = EXIT_SUCCESS ∧
   stderr (StatsC.main (λ _, "") ["stats"; "1"; "2"]) = "" ∧
   ∃ a, StatsC.parse_all ["1"; "2"] = inl a ∧ length a = length ["1"; "2"] ∧
        Forall in_int a) ∨
  (exit_code (StatsC.main (λ _, "") ["stats"; "1"; "2"]) = EXIT_FAILURE ∧
   stdout (StatsC.main (λ _, "") ["stats"; "1"; "2"]) = "" ∧
   ∃ bad, bad ∈ ["1"; "2"] ∧ StatsC.parse_int_strict bad = None ∧
          stderr (StatsC.main (λ _, "") ["stats"; "1"; "2"]) =
            "Invalid integer: '" +:+ bad +:+ "'" +:+ nl).
Proof. by apply (imperative_exit_status (λ _, "") "stats" ["1"; "2"]). Defined.

(** *** The statistics on sample data (C6) *)

(** Both calculators on the two samples of the specification. *)
Lemma statistics_on_samples :
  StatsML.mean [1; 2; 2; 3; 4; 4; 4; 5]%Z = StatsML.Val 3.125%float ∧
  StatsML.median [1; 2; 2; 3; 4; 4; 4; 5]%Z = StatsML.Val 3.5%float ∧
  StatsML.modes [1; 2; 2; 3; 4; 4; 4; 5]%Z = StatsML.Val [4%Z] ∧
  StatsC.mean [1; 2; 2; 3; 4; 4; 4; 5]%Z = 3.125%float ∧
  StatsC.median_sorted (StatsC.qsort [1; 2; 2; 3; 4; 4; 4; 5]%Z) = Some 3.5%float ∧
  StatsC.modes_from_sorted (StatsC.qsort [1; 2; 2; 3; 4; 4; 4; 5]%Z)
    (replicate 8 0%Z) = ([4; 0; 0; 0; 0; 0; 0; 0]%Z, 1%nat, 3%Z) ∧
  StatsML.median [1; 2; 3; 4]%Z = StatsML.Val 2.5%float ∧
  StatsML.modes [1; 2; 3; 4]%Z = StatsML.Val [1; 2; 3; 4]%Z ∧
  StatsC.median_sorted (StatsC.qsort [1; 2; 3; 4]%Z) = Some 2.5%float ∧
  StatsC.modes_from_sorted (StatsC.qsort [1; 2; 3; 4]%Z) (replicate 4 0%Z) =
    ([1; 2; 3; 4]%Z, 4%nat, 1%Z).
Proof. repeat split; by vm_compute. Qed.

(** C6 fails on the median.  For the arguments 2147483647 2147483647 the
    functional calculator finds the median 2147483647, while in the
    array-based one [left + right] overflows [int] (-2 on wrap-around) and
    the median comes out as -1. *)
Lemma median_differs_on_int_overflow :
  StatsML.median [2147483647; 2147483647]%Z = StatsML.Val 2147483647%float ∧
  StatsC.median_sorted (StatsC.qsort [2147483647; 2147483647]%Z) =
    Some (-1)%float ∧
  StatsC.parse_all ["2147483647"; "2147483647"] =
    inl [2147483647; 2147483647]%Z.
Proof. repeat split; by vm_compute. Qed.

End StatsFacts.

(** ** The ride fares *)
Module RideFacts.
Import RideShare.

Lemma totalEarnings_addRide d ride :
  totalEarnings (addRide d ride) = (totalEarnings d + fare ride)%float.
Proof. unfold totalEarnings, addRide. simpl. by rewrite fold_left_app. Qed.

(** C9 (amended).  Fares follow the two formulas in binary64 arithmetic, the
    surge multiplier defaulting to 1.0; a driver without rides has earned
    0.0 and every ride added contributes its fare to the running sum, in
    the order of assignment.  The standard ride of 15.2 miles costs
    25.799999999999997, the double just below the one nearest to 25.80 (so
    25.80 to the cent); the premium ride of 8.5 miles at surge 1.30 costs
    exactly 32.625. *)
Theorem fares_and_total_earnings :
  (∀ id pickup dropoff m,
     fare (StandardRide id pickup dropoff m) = (3.00 + m * 1.50)%float) ∧
  (∀ id pickup dropoff m s,
     fare (PremiumRide id pickup dropoff m s) = (5.00 + m * 2.50 * s)%float) ∧
  (∀ id pickup dropoff m,
     fare (make_premium id pickup dropoff m None) = (5.00 + m * 2.50 * 1.0)%float) ∧
  (∀ id n r, totalEarnings (new_driver id n r) = 0%float) ∧
  (∀ d ride, totalEarnings (addRide d ride) = (totalEarnings d + fare ride)%float) ∧
  fare r1 = 25.799999999999997%float ∧
  PrimFloat.next_up (fare r1) = 25.80%float ∧
  (25.795 <=? fare r1)%float = true ∧ (fare r1 <? 25.805)%float = true ∧
  fare r2 = 32.625%float ∧
  totalEarnings (addRide (addRide (new_driver "D01" "Avery" 4.88) r1) r2) =
    (fare r1 + fare r2)%float.
Proof.
  split; [done|]. split; [done|]. split; [done|]. split; [done|].
  split; [apply totalEarnings_addRide|].
  repeat split; by vm_compute.
Qed.

(** C9 as stated fails by one unit in the last place: 3.00 + 15.2 * 1.50
    is not the double 25.80. *)
Lemma standard_fare_is_not_25_80 : fare r1 ≠ 25.80%float.
Proof.
  intros E. apply (f_equal (λ f, PrimFloat.eqb f 25.80)) in E.
  vm_compute in E. discriminate E.
Qed.

End RideFacts.
